(** * A shallow embedding of HashMap.hpp and Dictionary.hpp

    The table is the triple of fields of the C++ class ([_map], [_size],
    [_capacity]).  Buckets are lists of pairs in insertion order, the bucket
    array is a list of buckets.  Methods that can throw, or that contain a
    [while] loop or an iterator driven loop, live in the [outcome] monad.

    Conventions.
    - [int] values are modelled by unbounded [Z]: signed overflow is undefined
      in C++, a table would need 2^30 buckets to get there.
    - [size_t] hash values are modelled by [N].
    - [(double) _size / _capacity > 0.75] is written [3 * cap < 4 * size],
      and [< 0.25] is written [4 * size < cap].  Both thresholds are exact
      binary fractions, IEEE division is correctly rounded and rounding is
      monotone, and two quotients of 32-bit integers that differ are further
      apart than the spacing of doubles below 1; so the floating point
      comparison and the integer one agree whenever [_capacity] is positive.
    - A read [_map[i]] at a bucket index is [bucket]; tables satisfying [wf]
      never read outside the array ([get_hash_index_lt]). *)

From stdpp Require Import base numbers list strings.

Open Scope Z_scope.

(** ** Exceptions and outcomes *)

Inductive exn : Type :=
  | runtime_error (msg : string)
  | InvalidKey (msg : string).

Definition INVALID_KEY_MSG : string := "Key not found".
Definition INVALID_VECTOR_LENGTHS_ERR_MSG : string :=
  "Error: The length of the received vectors is not equal".
Definition INVALID_KEY : string := "invalid key".

(** The spec's names for the three error kinds. *)
Definition KeyNotFound : exn := runtime_error INVALID_KEY_MSG.
Definition LengthMismatch : exn := runtime_error INVALID_VECTOR_LENGTHS_ERR_MSG.
Definition InvalidKeyError : exn := InvalidKey INVALID_KEY.

Inductive outcome (A : Type) : Type :=
  | Ret (a : A)          (* normal return *)
  | Throw (e : exn)      (* an exception leaves the call *)
  | OutOfFuel            (* a loop did not finish within its fuel *)
  | Undefined.           (* dereference of a cursor outside the table *)
Arguments Ret {A} a.
Arguments Throw {A} e.
Arguments OutOfFuel {A}.
Arguments Undefined {A}.

Global Instance outcome_ret : MRet outcome := λ A a, Ret a.
Global Instance outcome_bind : MBind outcome := λ A B f c,
  match c with
  | Ret a => f a
  | Throw e => Throw e
  | OutOfFuel => OutOfFuel
  | Undefined => Undefined
  end.

(** [try { c } catch (const exception &) { h }] *)
Definition try_catch {A} (c : outcome A) (h : outcome A) : outcome A :=
  match c with
  | Throw _ => h
  | _ => c
  end.

(** What the body of a loop asks for: go on, or leave the function. *)
Inductive ctl (S R : Type) : Type :=
  | Continue (s : S)
  | Return (r : R).
Arguments Continue {S R} s.
Arguments Return {S R} r.

(** The state a loop without [return] in its body ends in. *)
Definition loop_state {S} (c : ctl S Empty_set) : S :=
  match c with
  | Continue s => s
  | Return r => match r with end
  end.

Definition INITIAL_SIZE : Z := 0.
Definition INITIAL_CAPACITY : Z := 16.
Definition MIN_CAPACITY : Z := 1.

(** ** The table *)

Section HashMap.
Context {K V : Type} `{!EqDecision K, !EqDecision V}.
Variable hash_func : K → N.

Local Abbreviation PAIR_T := (K * V)%type.

Record HashMap : Type := mkHashMap {
  _map : list (list PAIR_T);
  _size : Z;
  _capacity : Z
}.

Definition with_map (m : HashMap) (bs : list (list PAIR_T)) : HashMap :=
  mkHashMap bs (_size m) (_capacity m).
Definition with_size (m : HashMap) (s : Z) : HashMap :=
  mkHashMap (_map m) s (_capacity m).
Definition with_capacity (m : HashMap) (c : Z) : HashMap :=
  mkHashMap (_map m) (_size m) c.

(** [new vector<PAIR_T>[c]] *)
Definition new_map (c : Z) : list (list PAIR_T) := replicate (Z.to_nat c) [].

(** [_map[i]] *)
Definition bucket (m : HashMap) (i : Z) : list PAIR_T :=
  default [] (_map m !! Z.to_nat i).

(** [_map[i] = b] *)
Definition set_bucket (m : HashMap) (i : Z) (b : list PAIR_T) : HashMap :=
  with_map m (<[Z.to_nat i := b]> (_map m)).

Definition size (m : HashMap) : Z := _size m.
Definition capacity (m : HashMap) : Z := _capacity m.
Definition empty (m : HashMap) : bool := bool_decide (_size m = INITIAL_SIZE).

Definition get_hash_index (m : HashMap) (key : K) : Z :=
  Z.land (Z.of_N (hash_func key)) (_capacity m - 1).

(** [get_load_factor () > UPPER_LOAD_FACTOR] *)
Definition above_upper (m : HashMap) : bool :=
  bool_decide (3 * _capacity m < 4 * _size m).
(** [get_load_factor () < LOWER_LOAD_FACTOR] *)
Definition below_lower (m : HashMap) : bool :=
  bool_decide (4 * _size m < _capacity m).

(** The first entry of a bucket whose key equals [key], with its position. *)
Definition find_key (key : K) (b : list PAIR_T) : option (nat * PAIR_T) :=
  list_find (λ element, key = element.1) b.

Definition contains_key (key : K) (m : HashMap) : bool :=
  match find_key key (bucket m (get_hash_index m key)) with
  | Some _ => true
  | None => false
  end.

Definition at_ (key : K) (m : HashMap) : outcome V :=
  match find_key key (bucket m (get_hash_index m key)) with
  | Some (_, element) => Ret element.2
  | None => Throw (runtime_error INVALID_KEY_MSG)
  end.

(** [_map[index].push_back (element)] with [index] the element's bucket. *)
Definition push_element (m : HashMap) (element : PAIR_T) : HashMap :=
  let index := get_hash_index m element.1 in
  set_bucket m index (bucket m index ++ [element]).

Definition move_elements_from (m : HashMap) (old_map : list (list PAIR_T))
    (old_size : Z) : HashMap :=
  foldl (λ m' b, foldl push_element m' b) m (take (Z.to_nat old_size) old_map).

Definition resize_map (m : HashMap) (old_size : Z) : HashMap :=
  let old_map := _map m in
  move_elements_from (with_map m (new_map (_capacity m))) old_map old_size.

(** The two [while] loops of [handle_resize]. *)
Fixpoint grow_loop (fuel : nat) (increase : bool) (m : HashMap) : outcome HashMap :=
  if above_upper m && increase then
    match fuel with
    | O => OutOfFuel
    | S fuel' =>
        let old_size := _capacity m in
        grow_loop fuel' increase
          (resize_map (with_capacity m (_capacity m * 2)) old_size)
    end
  else Ret m.

Fixpoint shrink_loop (fuel : nat) (increase : bool) (m : HashMap) : outcome HashMap :=
  if below_lower m && negb increase && bool_decide (_capacity m > MIN_CAPACITY) then
    match fuel with
    | O => OutOfFuel
    | S fuel' =>
        let old_size := _capacity m in
        shrink_loop fuel' increase
          (resize_map (with_capacity m (_capacity m `quot` 2)) old_size)
    end
  else Ret m.

(** Fuel: a turn of the first loop lowers [4 * size - 3 * capacity], a turn
    of the second one lowers [capacity]. *)
Definition handle_resize (increase : bool) (m : HashMap) : outcome HashMap :=
  m1 ← grow_loop (Z.to_nat (4 * _size m)) increase m;
  shrink_loop (Z.to_nat (_capacity m1)) increase m1.

Definition insert (key : K) (value : V) (m : HashMap) : outcome (bool * HashMap) :=
  let index := get_hash_index m key in
  match find_key key (bucket m index) with
  | Some _ => Ret (false, m)
  | None =>
      let m1 := set_bucket m index (bucket m index ++ [(key, value)]) in
      let m2 := with_size m1 (_size m1 + 1) in
      m3 ← handle_resize true m2;
      Ret (true, m3)
  end.

Definition erase (key : K) (m : HashMap) : outcome (bool * HashMap) :=
  let index := get_hash_index m key in
  match find_key key (bucket m index) with
  | Some (j, _) =>
      let m1 := set_bucket m index (delete j (bucket m index)) in
      let m2 := with_size m1 (_size m1 - 1) in
      m3 ← handle_resize false m2;
      Ret (true, m3)
  | None => Ret (false, m)
  end.

Definition bucket_size (key : K) (m : HashMap) : outcome Z :=
  _ ← at_ key m;
  let index := get_hash_index m key in
  Ret (Z.of_nat (length (bucket m index))).

Definition bucket_index (key : K) (m : HashMap) : outcome Z :=
  _ ← at_ key m;
  Ret (get_hash_index m key).

Definition clear (m : HashMap) : HashMap :=
  with_map (with_size m INITIAL_SIZE) (new_map (_capacity m)).

(** ** The iterator *)

Record ConstIterator : Type := mkIt { map_index : Z; element_index : Z }.

Global Instance ConstIterator_eq_dec : EqDecision ConstIterator.
Proof. solve_decision. Defined.

(** The [for] loop of [get_next_index_with_elements], started at [i], with
    [n] indices left below [_capacity]. *)
Fixpoint next_index_from (m : HashMap) (n : nat) (i : Z) : Z :=
  match n with
  | O => _capacity m
  | S n' =>
      match bucket m i with
      | [] => next_index_from m n' (i + 1)
      | _ :: _ => i
      end
  end.

Definition get_next_index_with_elements (m : HashMap) (curr_index : Z) : Z :=
  next_index_from m (Z.to_nat (_capacity m - (curr_index + 1))) (curr_index + 1).

Definition cbegin (m : HashMap) : ConstIterator :=
  mkIt (get_next_index_with_elements m 0) 0.
Definition cend (m : HashMap) : ConstIterator := mkIt (_capacity m) 0.

(** [operator++] *)
Definition it_next (m : HashMap) (it : ConstIterator) : ConstIterator :=
  if bool_decide (element_index it + 1 >= Z.of_nat (length (bucket m (map_index it))))
  then mkIt (get_next_index_with_elements m (map_index it)) 0
  else mkIt (map_index it) (element_index it + 1).

(** [operator*] *)
Definition it_deref (m : HashMap) (it : ConstIterator) : outcome PAIR_T :=
  if bool_decide (0 ≤ map_index it) && bool_decide (0 ≤ element_index it) then
    match _map m !! Z.to_nat (map_index it) with
    | Some b =>
        match b !! Z.to_nat (element_index it) with
        | Some element => Ret element
        | None => Undefined
        end
    | None => Undefined
    end
  else Undefined.

(** [for (auto &element : hm) body], from the cursor [it] on.  The body gets
    the element and the loop state and says whether the loop goes on. *)
Fixpoint range_for_from {S R} (fuel : nat) (hm : HashMap) (it : ConstIterator)
    (body : PAIR_T → S → outcome (ctl S R)) (s : S) : outcome (ctl S R) :=
  if decide (it = cend hm) then Ret (Continue s)
  else
    match fuel with
    | O => OutOfFuel
    | S fuel' =>
        element ← it_deref hm it;
        c ← body element s;
        match c with
        | Continue s' => range_for_from fuel' hm (it_next hm it) body s'
        | Return r => Ret (Return r)
        end
    end.

(** Each turn of the loop leaves one stored element behind. *)
Definition range_for {S R} (hm : HashMap)
    (body : PAIR_T → S → outcome (ctl S R)) (s : S) : outcome (ctl S R) :=
  range_for_from (length (concat (_map hm))) hm (cbegin hm) body s.

(** The elements a traversal from [begin()] to [end()] visits, in order. *)
Definition traverse (hm : HashMap) : outcome (list PAIR_T) :=
  c ← range_for (R := Empty_set) hm (λ element acc, Ret (Continue (acc ++ [element]))) [];
  Ret (loop_state c).

(** ** Constructors, assignment, comparison *)

Definition HashMap_default : HashMap :=
  mkHashMap (new_map INITIAL_CAPACITY) INITIAL_SIZE INITIAL_CAPACITY.

(** The inner loop shared by the two-vector constructor and
    [Dictionary::update]: every element of the bucket with an equal key gets
    the value when it differs.  The [continue] goes on with the same loop. *)
Definition overwrite_bucket (key : K) (value : V) (b : list PAIR_T) : list PAIR_T :=
  (λ element : PAIR_T,
     if decide (key = element.1) then
       if decide (value ≠ element.2) then (element.1, value) else element
     else element) <$> b.

(** One turn of the outer loop: the inner loop, then [insert]. *)
Definition put (key : K) (value : V) (m : HashMap) : outcome HashMap :=
  let index := get_hash_index m key in
  let m1 := set_bucket m index (overwrite_bucket key value (bucket m index)) in
  r ← insert key value m1;
  Ret r.2.

Fixpoint put_all (kvs : list PAIR_T) (m : HashMap) : outcome HashMap :=
  match kvs with
  | [] => Ret m
  | (key, value) :: kvs' => m' ← put key value m; put_all kvs' m'
  end.

Definition HashMap_vectors (keys : list K) (values : list V) : outcome HashMap :=
  let m := HashMap_default in
  if decide (length keys ≠ length values)
  then Throw (runtime_error INVALID_VECTOR_LENGTHS_ERR_MSG)
  else put_all (zip keys values) m.

(** The loop [for (element : hm) insert (element.first, element.second)]
    running on [this]. *)
Definition insert_from (hm : HashMap) (this : HashMap) : outcome HashMap :=
  c ← range_for (R := Empty_set) hm
        (λ element this', r ← insert element.1 element.2 this'; Ret (Continue r.2))
        this;
  Ret (loop_state c).

Definition HashMap_copy (hm : HashMap) : outcome HashMap :=
  insert_from hm (mkHashMap (new_map (_capacity hm)) INITIAL_SIZE (_capacity hm)).

(** [operator=] for [this != &hm]; on self assignment the source returns
    [*this] as it is. *)
Definition assign (this hm : HashMap) : outcome HashMap :=
  insert_from hm (clear this).

(** [operator[]], the non-const one; the reference it returns is given as
    the value it refers to. *)
Definition index_access `{!Inhabited V} (key : K) (m : HashMap) : outcome (V * HashMap) :=
  try_catch
    (element ← at_ key m; Ret (element, m))
    (r ← insert key inhabitant m;
     element ← at_ key r.2;
     Ret (element, r.2)).

Definition op_eq (this rhs : HashMap) : outcome bool :=
  try_catch
    (if decide (_size this ≠ _size rhs) then Ret false
     else
       c ← range_for this
             (λ elem (_ : unit),
                v ← at_ elem.1 rhs;
                if decide (v ≠ elem.2) then Ret (Return false)
                else Ret (Continue ()))
             ();
       match c with
       | Continue _ => Ret true
       | Return r => Ret r
       end)
    (Ret false).

Definition op_neq (this rhs : HashMap) : outcome bool :=
  b ← op_eq this rhs; Ret (negb b).

End HashMap.

(** ** Dictionary.hpp: the string table *)

Section Dictionary.
Variable hash_func : string → N.

Definition Dictionary : Type := @HashMap string string.

Definition Dictionary_default : Dictionary := HashMap_default.
Definition Dictionary_vectors (keys values : list string) : outcome Dictionary :=
  HashMap_vectors hash_func keys values.
Definition Dictionary_copy (hm : Dictionary) : outcome Dictionary :=
  HashMap_copy hash_func hm.

(** [Dictionary::erase]: the loop of [HashMap::erase], and a [throw] where
    the base class returns [false]. *)
Definition Dictionary_erase (key : string) (m : Dictionary)
    : outcome (bool * Dictionary) :=
  let index := get_hash_index hash_func m key in
  match find_key key (bucket m index) with
  | Some (j, _) =>
      let m1 := set_bucket m index (delete j (bucket m index)) in
      let m2 := with_size m1 (_size m1 - 1) in
      m3 ← handle_resize hash_func false m2;
      Ret (true, m3)
  | None => Throw (InvalidKey INVALID_KEY)
  end.

(** [Dictionary::update], on the pairs between [it] and [it_end].  The body
    of the [while] loop repeats the body of the two-vector constructor's
    loop, [put]. *)
Fixpoint update (its : list (string * string)) (m : Dictionary) : outcome Dictionary :=
  match its with
  | [] => Ret m
  | it :: its' =>
      let index := get_hash_index hash_func m it.1 in
      let m1 := set_bucket m index (overwrite_bucket it.1 it.2 (bucket m index)) in
      r ← insert hash_func it.1 it.2 m1;
      update its' r.2
  end.
End Dictionary.


(** ** Invariants and reachable states *)

Section Invariant.
Context {K V : Type} `{!EqDecision K, !EqDecision V, !Inhabited V}.
Variable hash_func : K → N.

(** The stored entries: bucket after bucket, insertion order inside. *)
Definition elements (m : @HashMap K V) : list (K * V) := concat (_map m).

(** Every entry sits in the bucket its key hashes to. *)
Definition placed (m : @HashMap K V) : Prop :=
  ∀ (i : nat) b element,
    _map m !! i = Some b → element ∈ b →
    Z.to_nat (get_hash_index hash_func m element.1) = i.

Record shaped (m : @HashMap K V) : Prop := mk_shaped {
  shaped_capacity : 1 ≤ _capacity m;
  shaped_length : length (_map m) = Z.to_nat (_capacity m);
  shaped_placed : placed m
}.

(** What every method of the class relies on and restores. *)
Record wf (m : @HashMap K V) : Prop := mk_wf {
  wf_shaped : shaped m;
  wf_nodup : NoDup (elements m).*1;
  wf_size : _size m = Z.of_nat (length (elements m))
}.

Definition is_pow2 (c : Z) : Prop := ∃ n : nat, c = 2 ^ Z.of_nat n.

(** The states the public methods lead to.  [Dictionary::erase] is not
    listed: where it returns it is [HashMap::erase], and where it throws the
    table is as before. *)
Inductive reachable : @HashMap K V → Prop :=
  | reach_default : reachable HashMap_default
  | reach_vectors keys values m :
      HashMap_vectors hash_func keys values = Ret m → reachable m
  | reach_copy hm m :
      reachable hm → HashMap_copy hash_func hm = Ret m → reachable m
  | reach_insert key value m r :
      reachable m → insert hash_func key value m = Ret r → reachable r.2
  | reach_erase key m r :
      reachable m → erase hash_func key m = Ret r → reachable r.2
  | reach_clear m :
      reachable m → reachable (clear m)
  | reach_assign this hm m :
      reachable this → reachable hm → assign hash_func this hm = Ret m →
      reachable m
  | reach_index key m r :
      reachable m → index_access hash_func key m = Ret r → reachable r.2
  | reach_update its m m' :
      (* [Dictionary::update], for the string table *)
      reachable m → put_all hash_func its m = Ret m' → reachable m'.

(** The invariant of the reachable states. *)
Definition inv (m : @HashMap K V) : Prop :=
  wf m ∧ is_pow2 (_capacity m) ∧ 4 * _size m ≤ 3 * _capacity m.

(** A loop over a list of elements, with the loop state and the early exit
    of [range_for]. *)
Fixpoint list_for {S R} (l : list (K * V))
    (body : K * V → S → outcome (ctl S R)) (s : S) : outcome (ctl S R) :=
  match l with
  | [] => Ret (Continue s)
  | element :: l' =>
      c ← body element s;
      match c with
      | Continue s' => list_for l' body s'
      | Return r => Ret (Return r)
      end
  end.

(** The elements from a cursor to the end of the table. *)
Definition rest (m : @HashMap K V) (it : ConstIterator) : list (K * V) :=
  drop (Z.to_nat (element_index it)) (bucket m (map_index it))
  ++ concat (drop (S (Z.to_nat (map_index it))) (_map m)).

(** A cursor a traversal can be at: the end, or a stored element. *)
Definition good_cursor (m : @HashMap K V) (it : ConstIterator) : Prop :=
  it = cend m ∨
  (0 ≤ map_index it < _capacity m ∧
   0 ≤ element_index it < Z.of_nat (length (bucket m (map_index it)))).

(** [insert] calls in a row, the results dropped. *)
Fixpoint insert_all (kvs : list (K * V)) (m : @HashMap K V) : outcome HashMap :=
  match kvs with
  | [] => Ret m
  | (key, value) :: kvs' => r ← insert hash_func key value m; insert_all kvs' r.2
  end.

(** The last value paired with [key] in a sequence of pairs. *)
Definition last_value (key : K) (kvs : list (K * V)) : option V :=
  foldl (λ acc kv, if decide (key = kv.1) then Some kv.2 else acc) None kvs.
End Invariant.

(** ** [HashMap<int, int>] with the identity hash of libstdc++ and libc++ *)

Module IntMap.
(** [std::hash<int>]: the value converted to [size_t]. *)
Definition hash_int (key : Z) : N := Z.to_N (key `mod` 2 ^ 64).

Definition t : Type := @HashMap Z Z.
Definition fresh : t := HashMap_default.

Definition inserts (kvs : list (Z * Z)) (m : t) : outcome t :=
  insert_all hash_int kvs m.

(** The table after [insert (k, v)] on a fresh table. *)
Definition single (k v : Z) : t :=
  mkHashMap (<[Z.to_nat (k `mod` 16) := [(k, v)]]> (new_map 16)) 1 16.

(** The table after [insert (1, 1)] and [insert (2, 2)] on a fresh table. *)
Definition two : t :=
  mkHashMap (<[2%nat := [(2, 2)]]> (<[1%nat := [(1, 1)]]> (new_map 16))) 2 16.

(** [int ()], the value [operator[]] stores for a missing key. *)
Definition int_default : Inhabited Z := populate 0.

(** Thirteen pairs with pairwise different keys; 1, 17 and 33 share a
    bucket. *)
Definition thirteen : list (Z * Z) :=
  [(1, 10); (17, 20); (33, 30); (4, 40); (5, 50); (6, 60); (7, 70);
   (8, 80); (9, 90); (10, 100); (11, 110); (12, 120); (13, 130)].
End IntMap.

(** ** [HashMap<string, string>] for concrete runs

    [std::hash<string>] is left to the implementation; the runs below use the
    length of the string in its place. *)

Module StrMap.
Definition hash_len (key : string) : N := N.of_nat (String.length key).

(** The table after [insert ("a", "1")] on a fresh table. *)
Definition single_a : Dictionary :=
  mkHashMap (<[1%nat := [("a", "1")]]> (new_map 16)) 1 16.
End StrMap.

(** ** Lists of buckets *)

Section Buckets.
Context {A : Type}.
Implicit Types (ls : list (list A)) (l : list A).

Lemma concat_lookup_split ls i l :
  ls !! i = Some l →
  concat ls = concat (take i ls) ++ l ++ concat (drop (S i) ls).
Proof.
  intros H. rewrite <-(take_drop_middle ls i l H) at 1.
  by rewrite concat_app, concat_cons.
Qed.

Lemma concat_insert_split ls i l' :
  (i < length ls)%nat →
  concat (<[i:=l']> ls) = concat (take i ls) ++ l' ++ concat (drop (S i) ls).
Proof.
  intros H. rewrite insert_take_drop by done.
  by rewrite concat_app, concat_cons.
Qed.

Lemma elem_of_concat x ls :
  x ∈ concat ls ↔ ∃ i l, ls !! i = Some l ∧ x ∈ l.
Proof.
  rewrite list_elem_of_In, in_concat. split.
  - intros (l & Hl & Hx). apply list_elem_of_In, list_elem_of_lookup in Hl as [i Hi].
    exists i, l. split; [done | by apply list_elem_of_In].
  - intros (i & l & Hi & Hx). exists l. split.
    + apply list_elem_of_In, list_elem_of_lookup. eauto.
    + by apply list_elem_of_In.
Qed.

Lemma concat_replicate_nil n : concat (replicate n (@nil A)) = [].
Proof. induction n; simpl; auto. Qed.
End Buckets.

Lemma NoDup_fst_agree {K V} (l : list (K * V)) k v1 v2 :
  NoDup l.*1 → (k, v1) ∈ l → (k, v2) ∈ l → v1 = v2.
Proof.
  induction l as [|[k' v'] l IH]; simpl; intros Hnd H1 H2.
  - by apply elem_of_nil in H1.
  - apply NoDup_cons in Hnd as [Hnotin Hnd].
    apply elem_of_cons in H1 as [H1|H1], H2 as [H2|H2]; simplify_eq; auto.
    + exfalso. apply Hnotin. apply list_elem_of_fmap. by exists (k', v2).
    + exfalso. apply Hnotin. apply list_elem_of_fmap. by exists (k', v1).
Qed.

(** ** Lookups *)

Section Lookup.
Context {K V : Type} `{!EqDecision K, !EqDecision V}.
Variable hash_func : K → N.
Implicit Types (m : @HashMap K V) (key : K) (value : V) (b : list (K * V)).

Lemma get_hash_index_range m key :
  1 ≤ _capacity m → 0 ≤ get_hash_index hash_func m key < _capacity m.
Proof.
  intros Hc. unfold get_hash_index.
  replace (_capacity m - 1) with (Z.of_N (Z.to_N (_capacity m - 1))) by lia.
  rewrite <-N2Z.inj_land.
  pose proof (N.land_le_r (hash_func key) (Z.to_N (_capacity m - 1))). lia.
Qed.

Lemma get_hash_index_capacity m m' key :
  _capacity m = _capacity m' →
  get_hash_index hash_func m key = get_hash_index hash_func m' key.
Proof. unfold get_hash_index. by intros ->. Qed.

Lemma get_hash_index_lt m key :
  shaped hash_func m →
  (Z.to_nat (get_hash_index hash_func m key) < length (_map m))%nat.
Proof.
  intros [Hc Hl _]. pose proof (get_hash_index_range m key Hc). lia.
Qed.

Lemma bucket_in_map m key :
  shaped hash_func m →
  _map m !! Z.to_nat (get_hash_index hash_func m key)
  = Some (bucket m (get_hash_index hash_func m key)).
Proof.
  intros Hs. unfold bucket.
  destruct (lookup_lt_is_Some_2 _ _ (get_hash_index_lt m key Hs)) as [b ->].
  done.
Qed.

Lemma bucket_elements m i e : e ∈ bucket m i → e ∈ elements m.
Proof.
  unfold bucket, elements. intros He. apply elem_of_concat.
  destruct (_map m !! Z.to_nat i) as [b|] eqn:Hb; simpl in He.
  - eauto.
  - by apply elem_of_nil in He.
Qed.

Lemma elements_bucket m e :
  shaped hash_func m → e ∈ elements m →
  e ∈ bucket m (get_hash_index hash_func m e.1).
Proof.
  intros Hs He. apply elem_of_concat in He as (i & b & Hi & He).
  unfold bucket. by rewrite (shaped_placed _ _ Hs i b e Hi He), Hi.
Qed.

Lemma find_key_Some key b j e :
  find_key key b = Some (j, e) → b !! j = Some e ∧ e.1 = key.
Proof. intros (? & ? & _)%list_find_Some. by split. Qed.

Lemma find_key_None key b :
  find_key key b = None ↔ key ∉ b.*1.
Proof.
  unfold find_key. rewrite list_find_None, Forall_forall. split.
  - intros H (e & -> & He)%list_elem_of_fmap. by apply (H e).
  - intros H e He ->. apply H, list_elem_of_fmap. eauto.
Qed.

Lemma find_key_elem_of key b v :
  NoDup b.*1 → (key, v) ∈ b → ∃ j, find_key key b = Some (j, (key, v)).
Proof.
  intros Hnd Hin.
  destruct (find_key key b) as [[j e]|] eqn:Hf.
  - exists j. apply find_key_Some in Hf as Hf'. destruct Hf' as [Hj He].
    destruct e as [k' v']; simpl in He; subst k'.
    apply list_elem_of_lookup_2 in Hj.
    by rewrite (NoDup_fst_agree b key v v' Hnd Hin Hj).
  - apply find_key_None in Hf. exfalso. apply Hf.
    apply list_elem_of_fmap. by exists (key, v).
Qed.

Lemma NoDup_keys_bucket m i : NoDup (elements m).*1 → NoDup (bucket m i).*1.
Proof.
  unfold bucket, elements. intros Hnd.
  destruct (_map m !! Z.to_nat i) as [b|] eqn:Hb; simpl; [|constructor].
  rewrite (concat_lookup_split _ _ _ Hb), !fmap_app in Hnd.
  by apply NoDup_app in Hnd as (_ & _ & (? & _)%NoDup_app).
Qed.

(** [at] finds exactly the stored entries. *)
Lemma at_elements m key v :
  wf hash_func m → at_ hash_func key m = Ret v ↔ (key, v) ∈ elements m.
Proof.
  intros [Hs Hnd _]. unfold at_. split.
  - destruct (find_key _ _) as [[j e]|] eqn:Hf; [|done].
    intros [= <-]. apply find_key_Some in Hf as [Hj <-].
    apply (bucket_elements m (get_hash_index hash_func m e.1)).
    destruct e. by apply list_elem_of_lookup_2 in Hj.
  - intros Hin. apply (elements_bucket m _ Hs) in Hin. simpl in Hin.
    destruct (find_key_elem_of key _ v (NoDup_keys_bucket m _ Hnd) Hin) as [j ->].
    done.
Qed.

Lemma at_cases m key :
  (∃ v, at_ hash_func key m = Ret v ∧ contains_key hash_func key m = true) ∨
  (at_ hash_func key m = Throw KeyNotFound ∧ contains_key hash_func key m = false).
Proof.
  unfold at_, contains_key.
  destruct (find_key _ _) as [[j e]|]; [left|right]; eauto.
Qed.

Lemma contains_key_elements m key :
  wf hash_func m →
  contains_key hash_func key m = true ↔ key ∈ (elements m).*1.
Proof.
  intros Hwf. split.
  - intros Hc. destruct (at_cases m key) as [(v & Hv & _)|[_ ?]]; [|congruence].
    apply (at_elements m key v Hwf) in Hv.
    apply list_elem_of_fmap. by exists (key, v).
  - intros ([k v] & -> & Hin)%list_elem_of_fmap. simpl.
    apply (at_elements m k v Hwf) in Hin.
    destruct (at_cases m k) as [(? & _ & ?)|[? _]]; [done | congruence].
Qed.

(** Two tables with the same entries for a key answer [at] alike. *)
Lemma at_determined m m' key :
  wf hash_func m → wf hash_func m' →
  (∀ v, (key, v) ∈ elements m ↔ (key, v) ∈ elements m') →
  at_ hash_func key m = at_ hash_func key m'.
Proof.
  intros Hm Hm' Hiff.
  destruct (at_cases m key) as [(v & Hv & _)|[Hv _]]; rewrite Hv.
  - symmetry. apply (at_elements m' key v Hm'), Hiff, (at_elements m key v Hm), Hv.
  - destruct (at_cases m' key) as [(v' & Hv' & _)|[Hv' _]]; [|done].
    apply (at_elements m' key v' Hm'), Hiff, (at_elements m key v' Hm) in Hv'.
    congruence.
Qed.

Lemma at_perm m m' key :
  wf hash_func m → wf hash_func m' → elements m ≡ₚ elements m' →
  at_ hash_func key m = at_ hash_func key m'.
Proof.
  intros Hm Hm' Hp. apply at_determined; [done..|]. intros v. by rewrite Hp.
Qed.
End Lookup.

(** ** Writing a bucket, rehashing *)

Section Rehash.
Context {K V : Type} `{!EqDecision K, !EqDecision V}.
Variable hash_func : K → N.
Implicit Types (m : @HashMap K V) (key : K) (value : V) (b : list (K * V)).

Lemma shaped_ext m m' :
  _map m = _map m' → _capacity m = _capacity m' →
  shaped hash_func m → shaped hash_func m'.
Proof.
  intros Hmap Hcap [Hc Hl Hp]. split.
  - by rewrite <-Hcap.
  - by rewrite <-Hmap, <-Hcap.
  - intros i b e. rewrite <-Hmap, <-(get_hash_index_capacity _ m m' _ Hcap).
    apply Hp.
Qed.

Lemma wf_with_size m s :
  shaped hash_func m → NoDup (elements m).*1 →
  s = Z.of_nat (length (elements m)) → wf hash_func (with_size m s).
Proof.
  intros Hs Hnd ->. split; [|done..]. by apply (shaped_ext m).
Qed.

Lemma set_bucket_split m key b' :
  shaped hash_func m →
  ∃ pre post,
    elements m = pre ++ bucket m (get_hash_index hash_func m key) ++ post ∧
    elements (set_bucket m (get_hash_index hash_func m key) b') = pre ++ b' ++ post.
Proof.
  intros Hs. eexists _, _. split.
  - apply concat_lookup_split, bucket_in_map, Hs.
  - apply concat_insert_split, get_hash_index_lt, Hs.
Qed.

Lemma set_bucket_shaped m key b' :
  shaped hash_func m →
  (∀ e, e ∈ b' → get_hash_index hash_func m e.1 = get_hash_index hash_func m key) →
  shaped hash_func (set_bucket m (get_hash_index hash_func m key) b').
Proof.
  intros Hs Hb'. pose proof (get_hash_index_lt _ m key Hs) as Hlt.
  destruct Hs as [Hc Hl Hp]. split; simpl.
  - done.
  - by rewrite length_insert.
  - intros i b e Hi He.
    change (Z.to_nat (get_hash_index hash_func m e.1) = i).
    simpl in Hi.
    destruct (decide (i = Z.to_nat (get_hash_index hash_func m key))) as [->|Hne].
    + rewrite list_lookup_insert_eq in Hi by done. simplify_eq.
      by rewrite Hb'.
    + rewrite list_lookup_insert_ne in Hi by done. by apply (Hp i b e).
Qed.

Lemma bucket_set_bucket_eq m key b' :
  shaped hash_func m →
  bucket (set_bucket m (get_hash_index hash_func m key) b')
         (get_hash_index hash_func m key) = b'.
Proof.
  intros Hs. unfold bucket, set_bucket; simpl.
  by rewrite list_lookup_insert_eq by apply get_hash_index_lt, Hs.
Qed.

Lemma bucket_set_bucket_ne m i j b' :
  Z.to_nat i ≠ Z.to_nat j → bucket (set_bucket m i b') j = bucket m j.
Proof.
  intros Hne. unfold bucket, set_bucket; simpl.
  by rewrite list_lookup_insert_ne.
Qed.

Lemma set_bucket_same m key :
  shaped hash_func m →
  set_bucket m (get_hash_index hash_func m key)
             (bucket m (get_hash_index hash_func m key)) = m.
Proof.
  intros Hs. unfold set_bucket, with_map.
  rewrite list_insert_id by apply bucket_in_map, Hs. by destruct m.
Qed.

Lemma bucket_hash m i e :
  shaped hash_func m → 0 ≤ i → e ∈ bucket m i →
  get_hash_index hash_func m e.1 = i.
Proof.
  intros Hs Hi He. unfold bucket in He.
  destruct (_map m !! Z.to_nat i) as [b|] eqn:Hb; simpl in He.
  - pose proof (shaped_placed _ _ Hs _ _ _ Hb He).
    pose proof (get_hash_index_range hash_func m e.1 (shaped_capacity _ _ Hs)).
    lia.
  - by apply elem_of_nil in He.
Qed.

Lemma push_element_spec m e :
  shaped hash_func m →
  shaped hash_func (push_element hash_func m e) ∧
  _capacity (push_element hash_func m e) = _capacity m ∧
  _size (push_element hash_func m e) = _size m ∧
  elements (push_element hash_func m e) ≡ₚ elements m ++ [e].
Proof.
  intros Hs. unfold push_element. split_and!; [|done..|].
  - apply set_bucket_shaped; [done|].
    intros e' [He'| ->%list_elem_of_singleton]%elem_of_app; [|done].
    apply (bucket_hash m _ _ Hs); [|done].
    apply get_hash_index_range, Hs.
  - destruct (set_bucket_split m e.1
                (bucket m (get_hash_index hash_func m e.1) ++ [e]) Hs)
      as (pre & post & -> & ->).
    rewrite <-!(assoc_L (++)). do 2 f_equiv. apply Permutation_app_comm.
Qed.
End Rehash.

(** ** [resize_map] and [handle_resize] *)

Section Resize.
Context {K V : Type} `{!EqDecision K, !EqDecision V}.
Variable hash_func : K → N.
Implicit Types (m : @HashMap K V) (key : K) (value : V) (b : list (K * V)).

Lemma foldl_push_element_spec l m :
  shaped hash_func m →
  shaped hash_func (foldl (push_element hash_func) m l) ∧
  _capacity (foldl (push_element hash_func) m l) = _capacity m ∧
  _size (foldl (push_element hash_func) m l) = _size m ∧
  elements (foldl (push_element hash_func) m l) ≡ₚ elements m ++ l.
Proof.
  revert m. induction l as [|e l IH]; intros m Hs; simpl.
  - by rewrite app_nil_r.
  - destruct (push_element_spec hash_func m e Hs) as (Hs1 & Hc1 & Hz1 & Hp1).
    destruct (IH _ Hs1) as (Hs2 & Hc2 & Hz2 & Hp2).
    split_and!; [done|congruence|congruence|].
    by rewrite Hp2, Hp1, <-(assoc_L (++)).
Qed.

Lemma move_elements_from_concat m old_map old_size :
  move_elements_from hash_func m old_map old_size
  = foldl (push_element hash_func) m (concat (take (Z.to_nat old_size) old_map)).
Proof.
  unfold move_elements_from. generalize (take (Z.to_nat old_size) old_map).
  intros bs. revert m. induction bs as [|b bs IH]; intros m; simpl; [done|].
  by rewrite foldl_app, IH.
Qed.

Lemma resize_map_spec m c :
  wf hash_func m → 1 ≤ c →
  wf hash_func (resize_map hash_func (with_capacity m c) (_capacity m)) ∧
  _capacity (resize_map hash_func (with_capacity m c) (_capacity m)) = c ∧
  _size (resize_map hash_func (with_capacity m c) (_capacity m)) = _size m ∧
  elements (resize_map hash_func (with_capacity m c) (_capacity m)) ≡ₚ elements m.
Proof.
  intros [[Hc Hl Hp] Hnd Hsz] Hc'. unfold resize_map.
  rewrite move_elements_from_concat. simpl.
  rewrite <-Hl, firstn_all.
  set (m0 := with_map (with_capacity m c) (new_map c)).
  assert (shaped hash_func m0) as Hs0.
  { split; simpl; unfold new_map; [done| by rewrite length_replicate |].
    intros i b e [-> _]%lookup_replicate He. by apply elem_of_nil in He. }
  destruct (foldl_push_element_spec (concat (_map m)) m0 Hs0) as (Hs & Hcap & Hsize & Hperm).
  assert (elements m0 = []) as E0 by apply concat_replicate_nil.
  rewrite E0 in Hperm. simpl in Hperm. fold (elements m) in Hperm.
  split_and!; [|done..]. split; [done| by rewrite Hperm |].
  rewrite Hsize. simpl. by rewrite Hperm.
Qed.

Lemma grow_loop_false fuel m : grow_loop hash_func fuel false m = Ret m.
Proof. destruct fuel; simpl; by rewrite andb_false_r. Qed.

Lemma shrink_loop_true fuel m : shrink_loop hash_func fuel true m = Ret m.
Proof. destruct fuel; simpl; by rewrite andb_false_r. Qed.

Lemma is_pow2_double c : is_pow2 c → is_pow2 (c * 2).
Proof.
  intros [n ->]. exists (S n). rewrite Nat2Z.inj_succ, Z.pow_succ_r; lia.
Qed.

Lemma is_pow2_half c : is_pow2 c → c > 1 → is_pow2 (c `quot` 2).
Proof.
  intros [n ->] Hgt. destruct n as [|n]; [simpl in Hgt; lia|].
  exists n. rewrite Nat2Z.inj_succ, Z.pow_succ_r by lia.
  rewrite Z.mul_comm, Z.quot_mul; lia.
Qed.

Lemma is_pow2_pos c : is_pow2 c → 1 ≤ c.
Proof. intros [n ->]. pose proof (Z.pow_pos_nonneg 2 (Z.of_nat n)). lia. Qed.

(** The growth loop ends, and ends below the upper threshold. *)
Lemma grow_loop_spec fuel m :
  wf hash_func m → (Z.to_nat (4 * _size m - 3 * _capacity m) ≤ fuel)%nat →
  ∃ m', grow_loop hash_func fuel true m = Ret m' ∧
        wf hash_func m' ∧ _size m' = _size m ∧ elements m' ≡ₚ elements m ∧
        4 * _size m' ≤ 3 * _capacity m' ∧ _capacity m ≤ _capacity m' ∧
        (is_pow2 (_capacity m) → is_pow2 (_capacity m')) ∧
        (4 * _size m ≤ 3 * _capacity m → m' = m).
Proof.
  revert m. induction fuel as [|fuel IH]; intros m Hwf Hfuel.
  - simpl. unfold above_upper. rewrite andb_true_r.
    case_bool_decide; [lia|]. exists m. split_and!; auto; lia.
  - simpl. unfold above_upper. rewrite andb_true_r.
    case_bool_decide as Hab.
    + pose proof (shaped_capacity _ _ (wf_shaped _ _ Hwf)) as Hc.
      destruct (resize_map_spec m (_capacity m * 2) Hwf ltac:(lia))
        as (Hwf1 & Hc1 & Hz1 & Hp1).
      destruct (IH _ Hwf1 ltac:(lia)) as (m' & Hrun & Hwf' & Hz' & Hp' & Hup & Hle & Hpow & _).
      exists m'. split_and!; [done|done|congruence| by rewrite Hp', Hp1 |done|lia| |lia].
      intros Hp2. apply Hpow. rewrite Hc1. by apply is_pow2_double.
    + exists m. split_and!; auto; lia.
Qed.

(** The shrinking loop ends: at the lower threshold or above it, or at the
    minimal capacity. *)
Lemma shrink_loop_spec fuel m :
  wf hash_func m → (Z.to_nat (_capacity m) ≤ fuel)%nat →
  ∃ m', shrink_loop hash_func fuel false m = Ret m' ∧
        wf hash_func m' ∧ _size m' = _size m ∧ elements m' ≡ₚ elements m ∧
        (_capacity m' > 1 → _capacity m' ≤ 4 * _size m') ∧
        (4 * _size m ≤ 3 * _capacity m → 4 * _size m' ≤ 3 * _capacity m') ∧
        (is_pow2 (_capacity m) → is_pow2 (_capacity m')).
Proof.
  revert m. induction fuel as [|fuel IH]; intros m Hwf Hfuel;
    pose proof (shaped_capacity _ _ (wf_shaped _ _ Hwf)) as Hc.
  - lia.
  - simpl. unfold below_lower, MIN_CAPACITY. rewrite andb_true_r.
    case_bool_decide as Hlow; simpl; [case_bool_decide as Hmin; simpl|].
    + assert (1 ≤ _capacity m `quot` 2 < _capacity m) as Hq.
      { rewrite Z.quot_div_nonneg by lia. split.
        - apply Z.div_le_lower_bound; lia.
        - apply Z.div_lt; lia. }
      assert (_capacity m - 1 ≤ 2 * (_capacity m `quot` 2)) as Hq2.
      { rewrite Z.quot_div_nonneg by lia.
        pose proof (Z.div_mod (_capacity m) 2 ltac:(lia)).
        pose proof (Z.mod_pos_bound (_capacity m) 2 ltac:(lia)). lia. }
      destruct (resize_map_spec m (_capacity m `quot` 2) Hwf ltac:(lia))
        as (Hwf1 & Hc1 & Hz1 & Hp1).
      destruct (IH _ Hwf1 ltac:(lia)) as (m' & Hrun & Hwf' & Hz' & Hp' & Hlo & Hup & Hpow).
      exists m'. split_and!; [done|done|congruence| by rewrite Hp', Hp1 |done| |].
      * intros _. apply Hup. lia.
      * intros Hp2. apply Hpow. rewrite Hc1. by apply is_pow2_half.
    + exists m. split_and!; auto; lia.
    + exists m. split_and!; auto; lia.
Qed.

Lemma handle_resize_true_spec m :
  wf hash_func m →
  ∃ m', handle_resize hash_func true m = Ret m' ∧
        wf hash_func m' ∧ _size m' = _size m ∧ elements m' ≡ₚ elements m ∧
        4 * _size m' ≤ 3 * _capacity m' ∧ _capacity m ≤ _capacity m' ∧
        (is_pow2 (_capacity m) → is_pow2 (_capacity m')) ∧
        (4 * _size m ≤ 3 * _capacity m → m' = m).
Proof.
  intros Hwf. pose proof (shaped_capacity _ _ (wf_shaped _ _ Hwf)) as Hc.
  destruct (grow_loop_spec (Z.to_nat (4 * _size m)) m Hwf ltac:(lia))
    as (m' & Hrun & H).
  exists m'. split; [|done].
  unfold handle_resize. rewrite Hrun. simpl. apply shrink_loop_true.
Qed.

Lemma handle_resize_false_spec m :
  wf hash_func m →
  ∃ m', handle_resize hash_func false m = Ret m' ∧
        wf hash_func m' ∧ _size m' = _size m ∧ elements m' ≡ₚ elements m ∧
        (_capacity m' > 1 → _capacity m' ≤ 4 * _size m') ∧
        (4 * _size m ≤ 3 * _capacity m → 4 * _size m' ≤ 3 * _capacity m') ∧
        (is_pow2 (_capacity m) → is_pow2 (_capacity m')).
Proof.
  intros Hwf.
  destruct (shrink_loop_spec (Z.to_nat (_capacity m)) m Hwf ltac:(lia))
    as (m' & Hrun & H).
  exists m'. split; [|done].
  unfold handle_resize. rewrite grow_loop_false. simpl. apply Hrun.
Qed.
End Resize.

(** ** [insert] and [erase] *)

Section Mutation.
Context {K V : Type} `{!EqDecision K, !EqDecision V}.
Variable hash_func : K → N.
Implicit Types (m : @HashMap K V) (key : K) (value : V) (b : list (K * V)).

Lemma contains_key_find m key :
  contains_key hash_func key m = false ↔
  find_key key (bucket m (get_hash_index hash_func m key)) = None.
Proof. unfold contains_key. destruct (find_key _ _); split; congruence. Qed.

Lemma insert_present m key value :
  contains_key hash_func key m = true →
  insert hash_func key value m = Ret (false, m).
Proof.
  unfold contains_key, insert. by destruct (find_key _ _).
Qed.

Lemma insert_absent_spec m key value :
  wf hash_func m → contains_key hash_func key m = false →
  ∃ m', insert hash_func key value m = Ret (true, m') ∧
        wf hash_func m' ∧ _size m' = _size m + 1 ∧
        elements m' ≡ₚ elements m ++ [(key, value)] ∧
        4 * _size m' ≤ 3 * _capacity m' ∧ _capacity m ≤ _capacity m' ∧
        (is_pow2 (_capacity m) → is_pow2 (_capacity m')) ∧
        (4 * (_size m + 1) ≤ 3 * _capacity m →
         m' = with_size (push_element hash_func m (key, value)) (_size m + 1)).
Proof.
  intros Hwf Habs. pose proof Hwf as [Hs Hnd Hsz].
  destruct (push_element_spec hash_func m (key, value) Hs) as (Hs1 & Hc1 & Hz1 & Hp1).
  set (m2 := with_size (push_element hash_func m (key, value)) (_size m + 1)).
  assert (wf hash_func m2) as Hwf2.
  { apply wf_with_size; [done| |].
    - rewrite Hp1, fmap_app. simpl. apply NoDup_app. split_and!; [done| |apply NoDup_singleton].
      intros k Hk ->%list_elem_of_singleton.
      apply (contains_key_elements hash_func m key Hwf) in Hk. congruence.
    - rewrite Hp1, length_app. simpl. lia. }
  destruct (handle_resize_true_spec hash_func m2 Hwf2)
    as (m' & Hrun & Hwf' & Hz' & Hp' & Hup & Hle & Hpow & Hsame).
  exists m'. split.
  { unfold insert. apply contains_key_find in Habs. rewrite Habs.
    change ((handle_resize hash_func true m2 ≫= λ m3, Ret (true, m3))
            = Ret (true, m')).
    by rewrite Hrun. }
  split_and!; try done.
  - by rewrite Hp'.
Qed.

Lemma erase_absent m key :
  contains_key hash_func key m = false →
  erase hash_func key m = Ret (false, m).
Proof.
  intros Habs%contains_key_find. unfold erase. by rewrite Habs.
Qed.

Lemma erase_present_spec m key :
  wf hash_func m → contains_key hash_func key m = true →
  ∃ m' v, erase hash_func key m = Ret (true, m') ∧
          wf hash_func m' ∧ _size m' = _size m - 1 ∧
          elements m ≡ₚ (key, v) :: elements m' ∧
          contains_key hash_func key m' = false ∧
          (_capacity m' > 1 → _capacity m' ≤ 4 * _size m') ∧
          (4 * _size m ≤ 3 * _capacity m → 4 * _size m' ≤ 3 * _capacity m') ∧
          (is_pow2 (_capacity m) → is_pow2 (_capacity m')).
Proof.
  intros Hwf Hpres. pose proof Hwf as [Hs Hnd Hsz].
  unfold contains_key in Hpres. unfold erase.
  destruct (find_key _ _) as [[j [k v]]|] eqn:Hf; [clear Hpres|done].
  apply find_key_Some in Hf as [Hj Hk]. simpl in Hk. subst k.
  set (i := get_hash_index hash_func m key) in *.
  set (m1 := set_bucket m i (delete j (bucket m i))).
  assert (shaped hash_func m1) as Hs1.
  { apply set_bucket_shaped; [done|]. intros e He%list_elem_of_delete_inv.
    apply (bucket_hash hash_func m _ _ Hs); [|done].
    apply get_hash_index_range, Hs. }
  assert (elements m ≡ₚ (key, v) :: elements m1) as Hp1.
  { subst m1 i.
    destruct (set_bucket_split hash_func m key
                (delete j (bucket m (get_hash_index hash_func m key))) Hs)
      as (pre & post & -> & ->).
    rewrite (delete_Permutation _ j (key, v) Hj) at 1.
    simpl. by rewrite <-Permutation_middle. }
  assert (NoDup (elements m1).*1 ∧ key ∉ (elements m1).*1) as [Hnd1 Hnotin].
  { rewrite Hp1 in Hnd. simpl in Hnd. apply NoDup_cons in Hnd. tauto. }
  set (m2 := with_size m1 (_size m1 - 1)).
  assert (wf hash_func m2) as Hwf2.
  { apply wf_with_size; [done..|]. simpl. rewrite Hsz, Hp1. simpl. lia. }
  destruct (handle_resize_false_spec hash_func m2 Hwf2)
    as (m' & Hrun & Hwf' & Hz' & Hp' & Hlo & Hup & Hpow).
  exists m', v.
  change (m3 ← handle_resize hash_func false m2; Ret (true, m3)) with
    (handle_resize hash_func false m2 ≫= λ m3, Ret (true, m3)).
  rewrite Hrun. split_and!; try done.
  - by rewrite Hp1, Hp'.
  - apply not_true_is_false. rewrite (contains_key_elements hash_func m' key Hwf').
    by rewrite Hp'.
  - intros H. apply Hup. simpl. lia.
Qed.
End Mutation.

(** ** The iterator and the loops it drives *)

Section Traversal.
Context {K V : Type} `{!EqDecision K, !EqDecision V}.
Implicit Types (m : @HashMap K V) (it : ConstIterator).

Lemma bucket_lookup m i :
  (Z.to_nat i < length (_map m))%nat →
  _map m !! Z.to_nat i = Some (bucket m i).
Proof.
  intros Hlt. unfold bucket. by destruct (lookup_lt_is_Some_2 _ _ Hlt) as [b ->].
Qed.

Lemma bucket_outside m i :
  (length (_map m) ≤ Z.to_nat i)%nat → bucket m i = [].
Proof. intros Hge. unfold bucket. by rewrite lookup_ge_None_2. Qed.

Lemma next_index_from_spec m n i :
  length (_map m) = Z.to_nat (_capacity m) →
  0 ≤ i → Z.of_nat n = _capacity m - i →
  i ≤ next_index_from m n i ≤ _capacity m ∧
  concat (drop (Z.to_nat i) (_map m))
  = concat (drop (Z.to_nat (next_index_from m n i)) (_map m)) ∧
  (next_index_from m n i < _capacity m → bucket m (next_index_from m n i) ≠ []).
Proof.
  intros Hl. revert i. induction n as [|n IH]; intros i Hi Hn; simpl.
  - assert (i = _capacity m) as -> by lia. split_and!; [lia..|done|lia].
  - pose proof (bucket_lookup m i ltac:(lia)) as Hb.
    destruct (bucket m i) as [|e b] eqn:Hbi.
    + destruct (IH (i + 1) ltac:(lia) ltac:(lia)) as (Hr & Hc & Hne).
      split_and!; [lia..| |done].
      rewrite <-Hc, (drop_S _ _ _ Hb). simpl.
      by replace (Z.to_nat (i + 1)) with (S (Z.to_nat i)) by lia.
    + split_and!; [lia..|done|]. by rewrite Hbi.
Qed.

Lemma rest_cend m :
  length (_map m) = Z.to_nat (_capacity m) → rest m (cend m) = [].
Proof.
  intros Hl. unfold rest, cend; simpl.
  rewrite bucket_outside by lia. rewrite drop_nil. simpl.
  by rewrite drop_ge by lia.
Qed.

(** The cursor [get_next_index_with_elements] leads to: nothing stored is
    skipped between the two buckets. *)
Lemma next_cursor_spec m curr :
  length (_map m) = Z.to_nat (_capacity m) →
  0 ≤ curr < _capacity m →
  good_cursor m (mkIt (get_next_index_with_elements m curr) 0) ∧
  rest m (mkIt (get_next_index_with_elements m curr) 0)
  = concat (drop (S (Z.to_nat curr)) (_map m)).
Proof.
  intros Hl Hcurr. unfold get_next_index_with_elements.
  destruct (next_index_from_spec m (Z.to_nat (_capacity m - (curr + 1))) (curr + 1)
              Hl ltac:(lia) ltac:(lia)) as (Hr & Hc & Hne).
  set (j := next_index_from m _ _) in *.
  replace (Z.to_nat (curr + 1)) with (S (Z.to_nat curr)) in Hc by lia.
  destruct (decide (j = _capacity m)) as [Hj|Hj].
  - split; [left; unfold cend; by rewrite Hj|].
    rewrite Hc, Hj. change (mkIt (_capacity m) 0) with (cend m).
    rewrite rest_cend by done. by rewrite drop_ge by lia.
  - specialize (Hne ltac:(lia)).
    split.
    + right; simpl. split; [lia|]. destruct (bucket m j); [done|simpl; lia].
    + rewrite Hc. unfold rest; simpl.
      by rewrite (drop_S _ _ _ (bucket_lookup m j ltac:(lia))).
Qed.

Lemma range_for_from_spec {S R} m (body : K * V → S → outcome (ctl S R)) fuel :
  length (_map m) = Z.to_nat (_capacity m) →
  ∀ it s, good_cursor m it → (length (rest m it) ≤ fuel)%nat →
  range_for_from fuel m it body s = list_for (rest m it) body s.
Proof.
  intros Hl. induction fuel as [|fuel IH]; intros it s Hgood Hfuel.
  - destruct Hgood as [->|[Hmi Hei]].
    + simpl. rewrite decide_True by done. by rewrite rest_cend by done.
    + exfalso. unfold rest in Hfuel. rewrite length_app, length_drop in Hfuel. lia.
  - destruct Hgood as [->|[Hmi Hei]].
    + simpl. rewrite decide_True by done. by rewrite rest_cend by done.
    + simpl. rewrite decide_False; last first.
      { intros ->. simpl in Hmi. lia. }
      destruct (lookup_lt_is_Some_2 (bucket m (map_index it))
                  (Z.to_nat (element_index it)) ltac:(lia)) as [e He].
      assert (it_deref m it = Ret e) as ->.
      { unfold it_deref. rewrite !bool_decide_eq_true_2 by lia. simpl.
        rewrite bucket_lookup by lia. by rewrite He. }
      assert (rest m it = e :: drop (Datatypes.S (Z.to_nat (element_index it)))
                                 (bucket m (map_index it))
                            ++ concat (drop (Datatypes.S (Z.to_nat (map_index it))) (_map m)))
        as Hrest.
      { unfold rest. by rewrite (drop_S _ _ _ He). }
      assert (good_cursor m (it_next m it) ∧
              rest m (it_next m it)
              = drop (Datatypes.S (Z.to_nat (element_index it))) (bucket m (map_index it))
                ++ concat (drop (Datatypes.S (Z.to_nat (map_index it))) (_map m)))
        as [Hgood' Hrest'].
      { unfold it_next. case_bool_decide as Hlast.
        - destruct (next_cursor_spec m (map_index it) Hl Hmi) as [Hg ->].
          split; [done|]. by rewrite (drop_ge (bucket m (map_index it))) by lia.
        - split; [right; simpl; lia|]. unfold rest; simpl.
          by replace (Z.to_nat (element_index it + 1))
            with (Datatypes.S (Z.to_nat (element_index it))) by lia. }
      rewrite Hrest in Hfuel |- *. simpl in Hfuel |- *.
      destruct (body e s) as [[s'|r]| | |]; simpl; try done.
      rewrite IH; [by rewrite Hrest'|done|]. rewrite Hrest'. lia.
Qed.

(** A loop over a table runs its body on the elements of the buckets of
    index 1 and above: [cbegin] starts the search after bucket 0. *)
Lemma range_for_spec {S R} m (body : K * V → S → outcome (ctl S R)) s :
  length (_map m) = Z.to_nat (_capacity m) → 1 ≤ _capacity m →
  range_for m body s = list_for (concat (drop 1 (_map m))) body s.
Proof.
  intros Hl Hc. unfold range_for, cbegin.
  destruct (next_cursor_spec m 0 Hl ltac:(lia)) as [Hgood Hrest].
  rewrite range_for_from_spec; [by rewrite Hrest|done..|].
  rewrite Hrest. simpl. destruct (_map m) as [|b0 bs]; simpl; [done|].
  rewrite drop_0, length_app. lia.
Qed.

Lemma list_for_collect (l acc : list (K * V)) :
  list_for (R := Empty_set) l (λ element acc, Ret (Continue (acc ++ [element]))) acc
  = Ret (Continue (acc ++ l)).
Proof.
  revert acc. induction l as [|e l IH]; intros acc; simpl.
  - by rewrite app_nil_r.
  - by rewrite IH, <-(assoc_L (++)).
Qed.

Lemma traverse_spec m :
  length (_map m) = Z.to_nat (_capacity m) → 1 ≤ _capacity m →
  traverse m = Ret (concat (drop 1 (_map m))).
Proof.
  intros Hl Hc. unfold traverse. rewrite range_for_spec by done.
  by rewrite list_for_collect.
Qed.
End Traversal.

(** ** The overwrite-then-insert step of the constructor and of [update] *)

Section Put.
Context {K V : Type} `{!EqDecision K, !EqDecision V}.
Variable hash_func : K → N.
Implicit Types (m : @HashMap K V) (key : K) (value : V) (b : list (K * V)).

Lemma overwrite_bucket_keys key value b :
  (overwrite_bucket key value b).*1 = b.*1.
Proof.
  unfold overwrite_bucket. rewrite <-list_fmap_compose.
  apply list_fmap_ext. intros _ e _. simpl. by repeat case_decide.
Qed.

Lemma overwrite_bucket_absent key value b :
  key ∉ b.*1 → overwrite_bucket key value b = b.
Proof.
  intros Hnotin. unfold overwrite_bucket. rewrite <-(list_fmap_id b) at 2.
  apply list_fmap_ext. intros i e He. simpl. case_decide as Hk; [|done].
  exfalso. apply Hnotin, list_elem_of_fmap. exists e. split; [done|].
  by apply list_elem_of_lookup_2 in He.
Qed.

Lemma find_key_overwrite k key value b :
  find_key k (overwrite_bucket key value b)
  = (λ je : nat * (K * V),
       (je.1, if decide (key = k) then (k, value) else je.2)) <$> find_key k b.
Proof.
  unfold find_key, overwrite_bucket. rewrite list_find_fmap.
  rewrite (list_find_ext _ (λ element : K * V, k = element.1)); last first.
  { intros e. simpl. by repeat case_decide. }
  destruct (list_find _ b) as [[j e]|] eqn:Hf; simpl; [|done].
  apply list_find_Some in Hf as (_ & -> & _).
  f_equal. f_equal. destruct e as [k' v']; simpl.
  repeat case_decide; simplify_eq; done.
Qed.

Lemma overwrite_wf m key value :
  wf hash_func m →
  wf hash_func (set_bucket m (get_hash_index hash_func m key)
                  (overwrite_bucket key value
                     (bucket m (get_hash_index hash_func m key)))).
Proof.
  intros [Hs Hnd Hsz].
  destruct (set_bucket_split hash_func m key
              (overwrite_bucket key value (bucket m (get_hash_index hash_func m key))) Hs)
    as (pre & post & E & E').
  split.
  - apply set_bucket_shaped; [done|]. intros e He.
    assert (e.1 ∈ (bucket m (get_hash_index hash_func m key)).*1) as Hk.
    { rewrite <-(overwrite_bucket_keys key value). apply list_elem_of_fmap. eauto. }
    apply list_elem_of_fmap in Hk as (e0 & -> & He0).
    apply (bucket_hash hash_func m _ _ Hs); [|done].
    apply get_hash_index_range, Hs.
  - rewrite E', !fmap_app, overwrite_bucket_keys, <-!fmap_app, <-E. done.
  - rewrite E'. simpl. rewrite Hsz, E, !length_app.
    unfold overwrite_bucket. by rewrite length_fmap.
Qed.

Lemma at_overwrite m key value k :
  shaped hash_func m →
  at_ hash_func k (set_bucket m (get_hash_index hash_func m key)
                     (overwrite_bucket key value
                        (bucket m (get_hash_index hash_func m key))))
  = if decide (k = key) then
      if contains_key hash_func key m then Ret value else Throw KeyNotFound
    else at_ hash_func k m.
Proof.
  intros Hs. unfold at_ at 1, contains_key.
  change (get_hash_index hash_func (set_bucket m _ _) k)
    with (get_hash_index hash_func m k).
  pose proof (get_hash_index_range hash_func m k (shaped_capacity _ _ Hs)).
  pose proof (get_hash_index_range hash_func m key (shaped_capacity _ _ Hs)).
  destruct (decide (get_hash_index hash_func m k = get_hash_index hash_func m key))
    as [Hi|Hi].
  - rewrite Hi, bucket_set_bucket_eq by done. rewrite find_key_overwrite.
    unfold at_. rewrite Hi.
    destruct (find_key k _) as [[j e]|] eqn:Hf; simpl.
    + apply find_key_Some in Hf as Hf'. destruct Hf' as [_ He].
      case_decide; subst.
      * rewrite decide_True by done. by rewrite Hf.
      * by rewrite decide_False by done.
    + case_decide; [|done]. subst. by rewrite Hf.
  - rewrite bucket_set_bucket_ne by lia.
    rewrite decide_False by (intros ->; done). done.
Qed.

Lemma at_after_add m m' key value :
  wf hash_func m → wf hash_func m' →
  elements m' ≡ₚ elements m ++ [(key, value)] →
  ∀ k, at_ hash_func k m' = if decide (k = key) then Ret value else at_ hash_func k m.
Proof.
  intros Hwf Hwf' Hp k. case_decide as Hk.
  - subst. apply (at_elements hash_func m' key value Hwf'). rewrite Hp.
    apply elem_of_app. right. by apply list_elem_of_singleton.
  - apply (at_determined hash_func m' m k Hwf' Hwf). intros v.
    rewrite Hp, elem_of_app, list_elem_of_singleton.
    split; [intros [?|[= ? ?]]; [done|congruence] | by left].
Qed.

Lemma put_spec m key value :
  wf hash_func m →
  ∃ m', put hash_func key value m = Ret m' ∧ wf hash_func m' ∧
        (∀ k, at_ hash_func k m'
              = if decide (k = key) then Ret value else at_ hash_func k m) ∧
        _size m' = _size m + (if contains_key hash_func key m then 0 else 1) ∧
        (is_pow2 (_capacity m) → is_pow2 (_capacity m')) ∧
        (4 * _size m ≤ 3 * _capacity m → 4 * _size m' ≤ 3 * _capacity m').
Proof.
  intros Hwf. pose proof (wf_shaped _ _ Hwf) as Hs. unfold put.
  set (m1 := set_bucket m _ _).
  pose proof (overwrite_wf m key value Hwf) as Hwf1. fold m1 in Hwf1.
  assert (∀ k, at_ hash_func k m1
               = if decide (k = key) then
                   if contains_key hash_func key m then Ret value
                   else Throw KeyNotFound
                 else at_ hash_func k m) as Hat1
    by (intros k; by apply at_overwrite).
  destruct (contains_key hash_func key m) eqn:Hc.
  - assert (contains_key hash_func key m1 = true) as Hc1.
    { specialize (Hat1 key). rewrite decide_True in Hat1 by done.
      destruct (at_cases hash_func m1 key) as [(? & _ & ?)|[? _]]; [done|congruence]. }
    rewrite (insert_present hash_func m1 key value Hc1). exists m1.
    split_and!; [done|done| |simpl; lia|done|done].
    intros k. rewrite (Hat1 k). by case_decide.
  - assert (m1 = m) as ->.
    { subst m1. rewrite overwrite_bucket_absent.
      - by apply set_bucket_same.
      - by apply find_key_None, contains_key_find. }
    destruct (insert_absent_spec hash_func m key value Hwf Hc)
      as (m' & -> & Hwf' & Hz' & Hp' & Hup & Hle & Hpow & _).
    exists m'. split_and!; [done|done| |done|done|done].
    by apply at_after_add.
Qed.
End Put.

(** ** Sequences of calls, and the invariant of the reachable states *)

Section Sequences.
Context {K V : Type} `{!EqDecision K, !EqDecision V, !Inhabited V}.
Variable hash_func : K → N.
Implicit Types (m hm this : @HashMap K V) (key : K) (value : V).
Implicit Types (kvs : list (K * V)).

Lemma last_value_cons k key value kvs :
  last_value k ((key, value) :: kvs)
  = match last_value k kvs with
    | Some v => Some v
    | None => if decide (k = key) then Some value else None
    end.
Proof.
  unfold last_value. simpl. generalize (if decide (k = key) then Some value else None).
  induction kvs as [|[k' v'] kvs IH]; intros acc; simpl.
  - by destruct acc.
  - rewrite IH, (IH (if decide (k = k') then _ else _)).
    destruct (foldl _ None kvs); [done|]. by case_decide.
Qed.

Lemma last_value_is_Some k kvs : is_Some (last_value k kvs) ↔ k ∈ kvs.*1.
Proof.
  induction kvs as [|[key value] kvs IH].
  - split; [by intros [? [=]] | by intros ?%elem_of_nil].
  - rewrite last_value_cons, fmap_cons, elem_of_cons, <-IH. simpl.
    destruct (last_value k kvs) as [v|].
    + split; [intros _; right; eauto | intros _; eauto].
    + case_decide; split.
      * intros _. by left.
      * intros _. eauto.
      * intros [? [=]].
      * intros [?|[? [=]]]. done.
Qed.

Lemma keys_at m k :
  wf hash_func m → k ∈ (elements m).*1 ↔ ∃ v, at_ hash_func k m = Ret v.
Proof.
  intros Hwf. rewrite <-(contains_key_elements hash_func m k Hwf).
  destruct (at_cases hash_func m k) as [(v & Hv & Hc)|[Hv Hc]]; rewrite Hc, Hv.
  - split; eauto.
  - split; [done|]. by intros [? [=]].
Qed.

Lemma put_all_spec kvs m :
  wf hash_func m →
  ∃ m', put_all hash_func kvs m = Ret m' ∧ wf hash_func m' ∧
        (∀ k, at_ hash_func k m'
              = match last_value k kvs with
                | Some v => Ret v
                | None => at_ hash_func k m
                end) ∧
        (is_pow2 (_capacity m) → is_pow2 (_capacity m')) ∧
        (4 * _size m ≤ 3 * _capacity m → 4 * _size m' ≤ 3 * _capacity m').
Proof.
  revert m. induction kvs as [|[key value] kvs IH]; intros m Hwf.
  - exists m. by split_and!.
  - destruct (put_spec hash_func m key value Hwf)
      as (m1 & Hput & Hwf1 & Hat1 & _ & Hpow1 & Hup1).
    destruct (IH m1 Hwf1) as (m' & Hrun & Hwf' & Hat' & Hpow' & Hup').
    exists m'. simpl. rewrite Hput. simpl. split_and!; [done|done| |tauto|tauto].
    intros k. rewrite Hat', last_value_cons, Hat1.
    destruct (last_value k kvs); [done|]. by case_decide.
Qed.

Lemma put_all_keys kvs m m' :
  wf hash_func m → wf hash_func m' →
  (∀ k, at_ hash_func k m'
        = match last_value k kvs with
          | Some v => Ret v
          | None => at_ hash_func k m
          end) →
  (elements m').*1 ≡ₚ remove_dups ((elements m).*1 ++ kvs.*1).
Proof.
  intros Hwf Hwf' Hat. apply NoDup_Permutation.
  - apply Hwf'.
  - apply NoDup_remove_dups.
  - intros k. rewrite elem_of_remove_dups, elem_of_app.
    rewrite (keys_at m' k Hwf'), (keys_at m k Hwf), <-last_value_is_Some, Hat.
    destruct (last_value k kvs) as [v|]; split.
    + intros _. right. eauto.
    + intros _. eauto.
    + intros H. by left.
    + intros [H|[? [=]]]. done.
Qed.

Lemma update_put_all hash_s its (m : Dictionary) :
  update hash_s its m = put_all hash_s its m.
Proof.
  revert m. induction its as [|[k v] its IH]; intros m; simpl; [done|].
  unfold put. simpl.
  destruct (insert hash_s k v _) as [r| | |]; simpl; [apply IH|done..].
Qed.

Lemma wf_new c size :
  1 ≤ c → size = 0 → wf hash_func (mkHashMap (@new_map K V c) size c).
Proof.
  intros Hc ->.
  assert (elements (mkHashMap (@new_map K V c) 0 c) = []) as E
    by apply concat_replicate_nil.
  split.
  - split; simpl; unfold new_map; [done| by rewrite length_replicate |].
    intros i b e [-> _]%lookup_replicate He. by apply elem_of_nil in He.
  - rewrite E. constructor.
  - by rewrite E.
Qed.

Lemma inv_new c size :
  is_pow2 c → size = 0 → inv hash_func (mkHashMap (@new_map K V c) size c).
Proof.
  intros Hp ->. pose proof (is_pow2_pos c Hp).
  split_and!; [by apply wf_new|done|simpl; lia].
Qed.

Lemma insert_inv m key value :
  inv hash_func m →
  ∃ r, insert hash_func key value m = Ret r ∧ inv hash_func r.2.
Proof.
  intros (Hwf & Hpow & Hup).
  destruct (contains_key hash_func key m) eqn:Hc.
  - exists (false, m). split; [by apply insert_present|done].
  - destruct (insert_absent_spec hash_func m key value Hwf Hc)
      as (m' & -> & Hwf' & _ & _ & Hup' & _ & Hpow' & _).
    exists (true, m'). split; [done|]. split_and!; auto.
Qed.

Lemma erase_inv m key :
  inv hash_func m →
  ∃ r, erase hash_func key m = Ret r ∧ inv hash_func r.2.
Proof.
  intros (Hwf & Hpow & Hup).
  destruct (contains_key hash_func key m) eqn:Hc.
  - destruct (erase_present_spec hash_func m key Hwf Hc)
      as (m' & v & -> & Hwf' & _ & _ & _ & _ & Hup' & Hpow').
    exists (true, m'). split; [done|]. split_and!; auto.
  - exists (false, m). split; [by apply erase_absent|done].
Qed.

Lemma list_for_insert_inv (l : list (K * V)) this :
  inv hash_func this →
  ∃ this',
    list_for (R := Empty_set) l
      (λ element this', r ← insert hash_func element.1 element.2 this';
                        Ret (Continue r.2)) this
    = Ret (Continue this') ∧ inv hash_func this'.
Proof.
  revert this. induction l as [|e l IH]; intros this Hinv; simpl.
  - eauto.
  - destruct (insert_inv this e.1 e.2 Hinv) as (r & -> & Hr). simpl.
    apply IH, Hr.
Qed.

Lemma insert_from_inv hm this :
  inv hash_func hm → inv hash_func this →
  ∃ this', insert_from hash_func hm this = Ret this' ∧ inv hash_func this'.
Proof.
  intros ([[Hc Hl _] _ _] & _ & _) Hthis. unfold insert_from.
  rewrite range_for_spec by done.
  destruct (list_for_insert_inv (concat (drop 1 (_map hm))) this Hthis)
    as (this' & -> & Hinv).
  by exists this'.
Qed.

Lemma inv_clear m : inv hash_func m → inv hash_func (clear m).
Proof. intros (_ & Hp & _). by apply inv_new. Qed.

(** Every reachable table is well formed, its capacity is a power of two
    and its load factor is at most [UPPER_LOAD_FACTOR]. *)
Lemma reachable_inv m : reachable hash_func m → inv hash_func m.
Proof.
  induction 1 as [|keys values m Hrun|hm m _ IH Hrun|key value m r _ IH Hrun
                  |key m r _ IH Hrun|m _ IH|this hm m _ IH1 _ IH2 Hrun
                  |key m r _ IH Hrun|its m m' _ IH Hrun].
  - apply inv_new; [by exists 4%nat|done].
  - unfold HashMap_vectors in Hrun. case_decide; [done|].
    assert (inv hash_func (@HashMap_default K V)) as (Hwf & Hp & Hl)
      by (apply inv_new; [by exists 4%nat|done]).
    destruct (put_all_spec (zip keys values) _ Hwf)
      as (m' & Hrun' & Hwf' & _ & Hpow & Hup).
    rewrite Hrun' in Hrun. injection Hrun as <-. split_and!; auto.
  - destruct IH as (Hwf & Hp & Hl).
    destruct (insert_from_inv hm
                (mkHashMap (new_map (_capacity hm)) INITIAL_SIZE (_capacity hm)))
      as (m' & Hrun' & Hinv); [done|by apply inv_new|].
    unfold HashMap_copy in Hrun. rewrite Hrun' in Hrun. by injection Hrun as <-.
  - destruct (insert_inv m key value IH) as (r' & Hrun' & Hinv).
    rewrite Hrun' in Hrun. by injection Hrun as <-.
  - destruct (erase_inv m key IH) as (r' & Hrun' & Hinv).
    rewrite Hrun' in Hrun. by injection Hrun as <-.
  - by apply inv_clear.
  - destruct (insert_from_inv hm (clear this) IH2 (inv_clear _ IH1))
      as (m' & Hrun' & Hinv).
    unfold assign in Hrun. rewrite Hrun' in Hrun. by injection Hrun as <-.
  - unfold index_access in Hrun.
    destruct (at_cases hash_func m key) as [(v & Hv & _)|[Hv _]]; rewrite Hv in Hrun;
      simpl in Hrun.
    + by injection Hrun as <-.
    + destruct (insert_inv m key inhabitant IH) as (r' & Hrun' & Hinv).
      rewrite Hrun' in Hrun. simpl in Hrun.
      destruct (at_ hash_func key r'.2); by simplify_eq/=.
- destruct IH as (Hwf & Hp & Hl).
  destruct (put_all_spec its m Hwf) as (m'' & Hrun' & Hwf' & _ & Hpow & Hup).
  rewrite Hrun' in Hrun. injection Hrun as <-. split_and!; auto.
Qed.
End Sequences.

(** ** Runs of [insert] on fresh keys *)

Section Scenario.
Context {K V : Type} `{!EqDecision K, !EqDecision V}.
Variable hash_func : K → N.
Implicit Types (m : @HashMap K V) (key : K) (value : V).
Implicit Types (kvs : list (K * V)).

Lemma insert_all_app kvs1 kvs2 m :
  insert_all hash_func (kvs1 ++ kvs2) m
  = m1 ← insert_all hash_func kvs1 m; insert_all hash_func kvs2 m1.
Proof.
  revert m. induction kvs1 as [|[k v] kvs1 IH]; intros m; simpl; [done|].
  destruct (insert hash_func k v m) as [r| | |]; simpl; [apply IH|done..].
Qed.

Lemma foldl_push_with_size kvs m s :
  foldl (push_element hash_func) (with_size m s) kvs
  = with_size (foldl (push_element hash_func) m kvs) s.
Proof.
  revert m. induction kvs as [|e kvs IH]; intros m; simpl; [done|].
  by rewrite <-IH.
Qed.

(** Fresh, pairwise different keys all go in; below the upper threshold the
    table is the old one with the new entries pushed to their buckets. *)
Lemma insert_all_spec kvs m :
  wf hash_func m → NoDup kvs.*1 →
  (∀ k, k ∈ kvs.*1 → k ∉ (elements m).*1) →
  ∃ m', insert_all hash_func kvs m = Ret m' ∧ wf hash_func m' ∧
        elements m' ≡ₚ elements m ++ kvs ∧
        _size m' = _size m + Z.of_nat (length kvs) ∧
        (4 * (_size m + Z.of_nat (length kvs)) ≤ 3 * _capacity m →
         m' = with_size (foldl (push_element hash_func) m kvs)
                        (_size m + Z.of_nat (length kvs))).
Proof.
  revert m. induction kvs as [|[k v] kvs IH]; intros m Hwf Hnd Hfresh.
  - exists m. split_and!; [done|done| by rewrite app_nil_r |simpl; lia|].
    intros _. simpl. rewrite Z.add_0_r. by destruct m.
  - simpl in Hnd. apply NoDup_cons in Hnd as [Hk Hnd].
    assert (contains_key hash_func k m = false) as Hc.
    { apply not_true_is_false. rewrite (contains_key_elements hash_func m k Hwf).
      apply Hfresh. simpl. apply elem_of_cons. by left. }
    destruct (insert_absent_spec hash_func m k v Hwf Hc)
      as (m1 & Hins & Hwf1 & Hz1 & Hp1 & _ & _ & _ & Hsame).
    destruct (IH m1 Hwf1 Hnd) as (m' & Hrun & Hwf' & Hp' & Hz' & Hsame').
    { intros k' Hk'. rewrite Hp1, fmap_app, elem_of_app. simpl.
      rewrite list_elem_of_singleton. intros [Hin| ->]; [|done].
      revert Hin. apply Hfresh. simpl. apply elem_of_cons. by right. }
    exists m'. simpl. rewrite Hins. simpl. split_and!; [done|done| | |].
    + rewrite Hp', Hp1, <-(assoc_L (++)). done.
    + rewrite Hz', Hz1. simpl length. lia.
    + simpl length. intros Hload. rewrite Hsame', Hsame by (rewrite ?Hsame by lia; simpl; lia).
      rewrite foldl_push_with_size. unfold with_size; simpl. f_equal. lia.
Qed.
End Scenario.

(** ** Concrete tables *)

Lemma reachable_fresh : reachable IntMap.hash_int IntMap.fresh.
Proof. apply reach_default. Qed.

Lemma reachable_single_0 : reachable IntMap.hash_int (IntMap.single 0 1).
Proof.
  apply (reach_insert IntMap.hash_int 0 1 IntMap.fresh (true, IntMap.single 0 1));
    [apply reach_default | reflexivity].
Qed.

Lemma reachable_single_1 : reachable IntMap.hash_int (IntMap.single 1 1).
Proof.
  apply (reach_insert IntMap.hash_int 1 1 IntMap.fresh (true, IntMap.single 1 1));
    [apply reach_default | reflexivity].
Qed.

Lemma reachable_two : reachable IntMap.hash_int IntMap.two.
Proof.
  apply (reach_insert IntMap.hash_int 2 2 (IntMap.single 1 1) (true, IntMap.two));
    [apply reachable_single_1 | reflexivity].
Qed.

Lemma wf_two : wf IntMap.hash_int IntMap.two.
Proof. apply reachable_inv, reachable_two. Qed.


Lemma wf_single_1 : wf IntMap.hash_int (IntMap.single 1 1).
Proof. apply reachable_inv, reachable_single_1. Qed.

Lemma wf_single_a : wf StrMap.hash_len StrMap.single_a.
Proof.
  apply (reachable_inv StrMap.hash_len).
  apply (reach_insert StrMap.hash_len "a" "1" HashMap_default (true, StrMap.single_a));
    [apply reach_default | reflexivity].
Qed.

(** * The claims *)

(** C5.  On a table that holds key [k] with value [v], [insert (k, v2)] with
    [v2 != v] returns [false] and leaves the table as it is: the size is the
    same and [at (k)] still gives [v]. *)
Theorem insert_existing_key_unchanged {K V : Type} `{!EqDecision K, !EqDecision V}
    (hash_func : K → N) (m : @HashMap K V) (k : K) (v v2 : V) :
  at_ hash_func k m = Ret v → v2 ≠ v →
  ∃ m', insert hash_func k v2 m = Ret (false, m') ∧ m' = m ∧
        _size m' = _size m ∧ at_ hash_func k m' = Ret v.
Proof.
  intros Hat _. exists m. split_and!; try done.
  apply insert_present.
  destruct (at_cases hash_func m k) as [(? & _ & ?)|[? _]]; [done|congruence].
Qed.

Lemma insert_existing_key_unchanged_witness :
  at_ IntMap.hash_int 1 (IntMap.single 1 1) = Ret 1 ∧ 2 ≠ 1 ∧
  ∃ m', insert IntMap.hash_int 1 2 (IntMap.single 1 1) = Ret (false, m') ∧
        m' = IntMap.single 1 1 ∧ _size m' = _size (IntMap.single 1 1) ∧
        at_ IntMap.hash_int 1 m' = Ret 1.
Proof.
  split; [reflexivity|]. split; [lia|].
  apply (insert_existing_key_unchanged IntMap.hash_int (IntMap.single 1 1) 1 1 2);
    [reflexivity | lia].
Defined.

(** C9.  [at (key)] returns the stored value when the key is present and
    throws the "Key not found" error when it is absent; [bucket_size] and
    [bucket_index] throw that error exactly when the key is absent and answer
    from the key's bucket otherwise.  The three are [const] methods: in the
    embedding they take the table and give back no table. *)
Theorem lookup_contract {K V : Type} `{!EqDecision K, !EqDecision V}
    (hash_func : K → N) (m : @HashMap K V) (key : K) :
  wf hash_func m →
  (∀ v, (key, v) ∈ elements m ↔ at_ hash_func key m = Ret v) ∧
  (key ∉ (elements m).*1 ↔ at_ hash_func key m = Throw KeyNotFound) ∧
  (key ∉ (elements m).*1 ↔ bucket_size hash_func key m = Throw KeyNotFound) ∧
  (key ∉ (elements m).*1 ↔ bucket_index hash_func key m = Throw KeyNotFound) ∧
  (key ∈ (elements m).*1 →
   bucket_size hash_func key m
   = Ret (Z.of_nat (length (bucket m (get_hash_index hash_func m key)))) ∧
   bucket_index hash_func key m = Ret (get_hash_index hash_func m key)).
Proof.
  intros Hwf.
  pose proof (keys_at hash_func m key Hwf) as Hkeys.
  unfold bucket_size, bucket_index.
  destruct (at_cases hash_func m key) as [(v & Hv & _)|[Hv _]]; rewrite Hv in *; simpl.
  - assert (key ∈ (elements m).*1) as Hin by (apply Hkeys; eauto).
    split_and!; try (split; [done|discriminate]); [|done].
    intros v'. rewrite <-Hv. symmetry. apply at_elements, Hwf.
  - assert (key ∉ (elements m).*1) as Hnotin.
    { rewrite Hkeys. by intros [? [=]]. }
    split_and!; try done.
    intros v'. rewrite <-Hv. symmetry. apply at_elements, Hwf.
Qed.

Lemma lookup_contract_witness :
  wf IntMap.hash_int (IntMap.single 1 1) ∧
  at_ IntMap.hash_int 1 (IntMap.single 1 1) = Ret 1 ∧
  at_ IntMap.hash_int 2 (IntMap.single 1 1) = Throw KeyNotFound.
Proof.
  split; [apply wf_single_1|]. split.
  - apply (lookup_contract IntMap.hash_int (IntMap.single 1 1) 1 wf_single_1).
    vm_compute. apply list_elem_of_here.
  - apply (lookup_contract IntMap.hash_int (IntMap.single 1 1) 2 wf_single_1).
    vm_compute. intros H. apply elem_of_cons in H as [H|H]; [discriminate|].
    by apply elem_of_nil in H.
Defined.

Lemma erase_present_view {K V : Type} `{!EqDecision K, !EqDecision V}
    (hash_func : K → N) (m : @HashMap K V) (key : K) :
  wf hash_func m → contains_key hash_func key m = true →
  ∃ m', erase hash_func key m = Ret (true, m') ∧ wf hash_func m' ∧
        _size m' = _size m - 1 ∧ contains_key hash_func key m' = false ∧
        (∀ k, k ≠ key → at_ hash_func k m' = at_ hash_func k m).
Proof.
  intros Hwf Hc.
  destruct (erase_present_spec hash_func m key Hwf Hc)
    as (m' & v & Hrun & Hwf' & Hz & Hp & Hc' & _).
  exists m'. split_and!; try done.
  intros k Hk. apply at_determined; [done..|]. intros v'.
  rewrite Hp, elem_of_cons. split; [by right|]. intros [[= ? ?]|?]; done.
Qed.

Lemma Dictionary_erase_present hash_s (d : Dictionary) (key : string) :
  contains_key hash_s key d = true →
  Dictionary_erase hash_s key d = erase hash_s key d.
Proof.
  unfold contains_key, Dictionary_erase, erase.
  by destruct (find_key _ _) as [[j e]|].
Qed.

Lemma Dictionary_erase_absent hash_s (d : Dictionary) (key : string) :
  contains_key hash_s key d = false →
  Dictionary_erase hash_s key d = Throw (InvalidKey INVALID_KEY).
Proof.
  unfold contains_key, Dictionary_erase.
  by destruct (find_key _ _) as [[j e]|].
Qed.

(** C4.  [erase (key)] on a key the table stores returns [true] and takes
    the entry out: the entries are the old ones without it, the key is no
    longer stored ([contains_key] is false, [at] throws), the size is one
    less and the other keys keep their values.  On a key the table does not
    store [HashMap::erase] returns [false] and leaves the table as it is, and
    [Dictionary::erase] throws [InvalidKey]. *)
Theorem erase_contract {K V : Type} `{!EqDecision K, !EqDecision V}
    (hash_func : K → N) (m : @HashMap K V) (key : K)
    (hash_s : string → N) (d : Dictionary) (skey : string) :
  wf hash_func m → wf hash_s d →
  (∀ v, (key, v) ∈ elements m →
     ∃ m', erase hash_func key m = Ret (true, m') ∧
           elements m ≡ₚ (key, v) :: elements m' ∧
           (key ∉ (elements m').*1) ∧
           _size m' = _size m - 1 ∧
           contains_key hash_func key m' = false ∧
           at_ hash_func key m' = Throw KeyNotFound ∧
           (∀ k, k ≠ key → at_ hash_func k m' = at_ hash_func k m)) ∧
  (key ∉ (elements m).*1 → erase hash_func key m = Ret (false, m)) ∧
  (∀ v, (skey, v) ∈ elements d →
     ∃ d', Dictionary_erase hash_s skey d = Ret (true, d') ∧
           elements d ≡ₚ (skey, v) :: elements d' ∧
           (skey ∉ (elements d').*1) ∧
           _size d' = _size d - 1 ∧
           contains_key hash_s skey d' = false ∧
           at_ hash_s skey d' = Throw KeyNotFound ∧
           (∀ k, k ≠ skey → at_ hash_s k d' = at_ hash_s k d)) ∧
  (skey ∉ (elements d).*1 →
   Dictionary_erase hash_s skey d = Throw (InvalidKey INVALID_KEY)).
Proof.
  intros Hm Hd.
  assert (∀ (K' V' : Type) `{!EqDecision K', !EqDecision V'} (h : K' → N)
            (t : @HashMap K' V') (k : K') (v : V'),
            wf h t → (k, v) ∈ elements t →
            contains_key h k t = true ∧
            ∃ t', erase h k t = Ret (true, t') ∧
                  elements t ≡ₚ (k, v) :: elements t' ∧
                  (k ∉ (elements t').*1) ∧
                  _size t' = _size t - 1 ∧
                  contains_key h k t' = false ∧
                  at_ h k t' = Throw KeyNotFound ∧
                  (∀ k', k' ≠ k → at_ h k' t' = at_ h k' t)) as Hpresent.
  { intros K' V' ? ? h t k v Hwf Hin.
    assert (contains_key h k t = true) as Hc.
    { apply (contains_key_elements h t k Hwf), list_elem_of_fmap.
      by exists (k, v). }
    split; [done|].
    destruct (erase_present_spec h t k Hwf Hc)
      as (t' & v' & Hrun & Hwf' & Hz & Hp & Hc' & _).
    assert (v' = v) as ->.
    { apply (NoDup_fst_agree (elements t) k); [apply Hwf| |done].
      rewrite Hp. apply list_elem_of_here. }
    exists t'. split_and!; [done|done| |done|done| |].
    - by rewrite <-(contains_key_elements h t' k Hwf'), Hc'.
    - destruct (at_cases h t' k) as [(? & _ & ?)|[? _]]; [congruence|done].
    - intros k' Hk'. apply at_determined; [done..|]. intros v''.
      rewrite Hp, elem_of_cons. split; [by right|]. intros [[= ? ?]|?]; done. }
  assert (∀ (K' V' : Type) `{!EqDecision K', !EqDecision V'} (h : K' → N)
            (t : @HashMap K' V') (k : K'),
            wf h t → k ∉ (elements t).*1 → contains_key h k t = false) as Habsent.
  { intros K' V' ? ? h t k Hwf Hnotin. apply not_true_is_false.
    by rewrite (contains_key_elements h t k Hwf). }
  split_and!.
  - intros v Hin. by destruct (Hpresent _ _ _ _ hash_func m key v Hm Hin) as [_ ?].
  - intros Hnotin. apply erase_absent, (Habsent _ _ _ _ hash_func m key Hm Hnotin).
  - intros v Hin.
    destruct (Hpresent _ _ _ _ hash_s d skey v Hd Hin) as [Hc (d' & Hrun & Hrest)].
    exists d'. split; [|done]. by rewrite Dictionary_erase_present.
  - intros Hnotin.
    apply Dictionary_erase_absent, (Habsent _ _ _ _ hash_s d skey Hd Hnotin).
Qed.

Lemma erase_contract_witness :
  wf IntMap.hash_int IntMap.two ∧ wf StrMap.hash_len StrMap.single_a ∧
  (1, 1) ∈ elements IntMap.two ∧ ("a", "1") ∈ elements StrMap.single_a ∧
  (3 ∉ (elements IntMap.two).*1) ∧ ("b" ∉ (elements StrMap.single_a).*1) ∧
  (∃ m', erase IntMap.hash_int 1 IntMap.two = Ret (true, m') ∧
         _size m' = 1 ∧ at_ IntMap.hash_int 1 m' = Throw KeyNotFound ∧
         at_ IntMap.hash_int 2 m' = Ret 2) ∧
  (∃ d', Dictionary_erase StrMap.hash_len "a" StrMap.single_a = Ret (true, d') ∧
         _size d' = 0 ∧ at_ StrMap.hash_len "a" d' = Throw KeyNotFound) ∧
  erase IntMap.hash_int 3 IntMap.two = Ret (false, IntMap.two) ∧
  Dictionary_erase StrMap.hash_len "b" StrMap.single_a
  = Throw (InvalidKey INVALID_KEY).
Proof.
  assert ((1, 1) ∈ elements IntMap.two) as Hin1
    by (vm_compute; apply list_elem_of_here).
  assert (("a", "1") ∈ elements StrMap.single_a) as Hina
    by (vm_compute; apply list_elem_of_here).
  assert (3 ∉ (elements IntMap.two).*1) as Hout3.
  { vm_compute. intros H. repeat (apply elem_of_cons in H as [H|H]; [discriminate|]).
    by apply elem_of_nil in H. }
  assert ("b" ∉ (elements StrMap.single_a).*1) as Houtb.
  { vm_compute. intros H. repeat (apply elem_of_cons in H as [H|H]; [discriminate|]).
    by apply elem_of_nil in H. }
  destruct (erase_contract IntMap.hash_int IntMap.two 1
              StrMap.hash_len StrMap.single_a "a" wf_two wf_single_a)
    as (Hpres & _ & Hdpres & _).
  destruct (erase_contract IntMap.hash_int IntMap.two 3
              StrMap.hash_len StrMap.single_a "b" wf_two wf_single_a)
    as (_ & Habs & _ & Hdabs).
  destruct (Hpres 1 Hin1) as (m' & Hrun & _ & _ & Hz & _ & Hat & Hother).
  destruct (Hdpres "1" Hina) as (d' & Hdrun & _ & _ & Hdz & _ & Hdat & _).
  split; [apply wf_two|]. split; [apply wf_single_a|].
  split; [exact Hin1|]. split; [exact Hina|].
  split; [exact Hout3|]. split; [exact Houtb|].
  split.
  { exists m'. split; [exact Hrun|]. split; [exact Hz|]. split; [exact Hat|].
    etransitivity; [apply (Hother 2); lia|reflexivity]. }
  split.
  { exists d'. split; [exact Hdrun|]. split; [exact Hdz|exact Hdat]. }
  split; [exact (Habs Hout3)|exact (Hdabs Houtb)].
Defined.

Lemma erase_contract_present_run :
  (∃ m', erase IntMap.hash_int 1 (IntMap.single 1 1) = Ret (true, m') ∧
         _size m' = 0 ∧ _capacity m' = 1) ∧
  (∃ d', Dictionary_erase StrMap.hash_len "a" StrMap.single_a = Ret (true, d') ∧
         _size d' = 0 ∧ _capacity d' = 1).
Proof. split; eexists; (split; [reflexivity|]); by vm_compute. Qed.




(** ** The scenario of the thirteen inserts *)

Section Thirteen.
Context {K V : Type} `{!EqDecision K, !EqDecision V}.
Variable hash_func : K → N.
Implicit Types (m : @HashMap K V) (key : K) (value : V).

(** When doubling once is enough, [handle_resize (true)] is one call of
    [resize_map]. *)
Lemma handle_resize_once m :
  wf hash_func m →
  3 * _capacity m < 4 * _size m → 4 * _size m ≤ 6 * _capacity m →
  handle_resize hash_func true m
  = Ret (resize_map hash_func (with_capacity m (_capacity m * 2)) (_capacity m)).
Proof.
  intros Hwf Hab Hle.
  pose proof (shaped_capacity _ _ (wf_shaped _ _ Hwf)) as Hc.
  destruct (resize_map_spec hash_func m (_capacity m * 2) Hwf ltac:(lia))
    as (Hwf1 & Hc1 & Hz1 & _).
  unfold handle_resize.
  destruct (Z.to_nat (4 * _size m)) as [|fuel] eqn:Hfuel; [lia|].
  simpl. unfold above_upper at 1. rewrite bool_decide_eq_true_2 by done. simpl.
  replace (grow_loop hash_func fuel true _)
    with (Ret (resize_map hash_func (with_capacity m (_capacity m * 2)) (_capacity m))).
  - simpl. apply shrink_loop_true.
  - symmetry. destruct fuel; simpl; unfold above_upper;
      rewrite Hc1, Hz1, bool_decide_eq_false_2 by lia; done.
Qed.

Lemma insert_grows_once m key value :
  wf hash_func m → contains_key hash_func key m = false →
  3 * _capacity m < 4 * (_size m + 1) → 4 * (_size m + 1) ≤ 6 * _capacity m →
  insert hash_func key value m
  = Ret (true,
         resize_map hash_func
           (with_capacity (with_size (push_element hash_func m (key, value))
                                     (_size m + 1))
                          (_capacity m * 2))
           (_capacity m)).
Proof.
  intros Hwf Hc Hab Hle. pose proof Hwf as [Hs Hnd Hsz].
  destruct (push_element_spec hash_func m (key, value) Hs) as (Hs1 & Hc1 & Hz1 & Hp1).
  set (m2 := with_size (push_element hash_func m (key, value)) (_size m + 1)).
  assert (wf hash_func m2) as Hwf2.
  { apply wf_with_size; [done| |].
    - rewrite Hp1, fmap_app. simpl. apply NoDup_app.
      split_and!; [done| |apply NoDup_singleton].
      intros k Hk ->%list_elem_of_singleton.
      apply (contains_key_elements hash_func m key Hwf) in Hk. congruence.
    - rewrite Hp1, length_app. simpl. lia. }
  unfold insert. apply contains_key_find in Hc. rewrite Hc.
  change ((handle_resize hash_func true m2 ≫= λ m3, Ret (true, m3))
          = Ret (true, resize_map hash_func (with_capacity m2 (_capacity m2 * 2))
                         (_capacity m2))).
  by rewrite handle_resize_once.
Qed.
End Thirteen.

(** C7.  Thirteen inserts with pairwise different keys into a fresh table of
    capacity 16.  The first twelve only push the entries into their buckets:
    no rehash, capacity 16.  The thirteenth one pushes its entry and calls
    [resize_map] once, to capacity 32.  All thirteen keys then give their
    values under [at]. *)
Theorem thirteen_inserts_grow_once {K V : Type} `{!EqDecision K, !EqDecision V}
    (hash_func : K → N) (kvs : list (K * V)) :
  NoDup kvs.*1 → length kvs = 13%nat →
  (∀ n : nat, (n ≤ 12)%nat →
     ∃ m, insert_all hash_func (take n kvs) HashMap_default = Ret m ∧
          m = with_size (foldl (push_element hash_func) HashMap_default (take n kvs))
                        (Z.of_nat n) ∧
          _capacity m = 16 ∧ _size m = Z.of_nat n) ∧
  ∃ m12 k v m13,
    insert_all hash_func (take 12 kvs) HashMap_default = Ret m12 ∧
    kvs !! 12%nat = Some (k, v) ∧
    insert hash_func k v m12 = Ret (true, m13) ∧
    m13 = resize_map hash_func
            (with_capacity (with_size (push_element hash_func m12 (k, v)) 13) 32) 16 ∧
    insert_all hash_func kvs HashMap_default = Ret m13 ∧
    _capacity m13 = 32 ∧ _size m13 = 13 ∧
    ∀ k' v', (k', v') ∈ kvs → at_ hash_func k' m13 = Ret v'.
Proof.
  intros Hnd Hlen.
  assert (wf hash_func (@HashMap_default K V)) as Hwf0 by (by apply wf_new).
  assert (∀ n : nat, (n ≤ 12)%nat →
     ∃ m, insert_all hash_func (take n kvs) HashMap_default = Ret m ∧
          m = with_size (foldl (push_element hash_func) HashMap_default (take n kvs))
                        (Z.of_nat n) ∧
          _capacity m = 16 ∧ _size m = Z.of_nat n ∧ wf hash_func m ∧
          elements m ≡ₚ take n kvs) as Hfirst.
  { intros n Hn.
    destruct (insert_all_spec hash_func (take n kvs) HashMap_default Hwf0)
      as (m & Hrun & Hwf & Hp & Hz & Hsame).
    - rewrite fmap_take. eapply sublist_NoDup; [exact Hnd|apply sublist_take].
    - intros k _ Hk. by apply elem_of_nil in Hk.
    - rewrite length_take, Hlen in Hz, Hsame.
      replace (n `min` 13)%nat with n in Hz, Hsame by lia.
      change (_size (@HashMap_default K V)) with 0 in Hz, Hsame.
      change (_capacity (@HashMap_default K V)) with 16 in Hsame.
      specialize (Hsame ltac:(lia)). rewrite Z.add_0_l in Hz, Hsame.
      exists m. split_and!; [done|done| |done|done|done].
      rewrite Hsame. simpl.
      by destruct (foldl_push_element_spec hash_func (take n kvs) HashMap_default
                     (wf_shaped _ _ Hwf0)) as (_ & -> & _). }
  split.
  { intros n Hn. destruct (Hfirst n Hn) as (m & ? & ? & ? & ? & _). by exists m. }
  destruct (Hfirst 12%nat ltac:(lia)) as (m12 & Hrun12 & _ & Hc12 & Hz12 & Hwf12 & Hp12).
  destruct (lookup_lt_is_Some_2 kvs 12 ltac:(lia)) as [[k v] Hkv].
  assert (kvs = take 12 kvs ++ [(k, v)]) as Hsplit.
  { rewrite <-(take_S_r _ _ _ Hkv). by rewrite take_ge by lia. }
  assert (contains_key hash_func k m12 = false) as Hc.
  { apply not_true_is_false. rewrite (contains_key_elements hash_func m12 k Hwf12), Hp12.
    rewrite Hsplit, fmap_app in Hnd. apply NoDup_app in Hnd as (_ & Hdisj & _).
    intros Hin. apply (Hdisj k Hin). simpl. apply list_elem_of_here. }
  pose proof (insert_grows_once hash_func m12 k v Hwf12 Hc ltac:(lia) ltac:(lia)) as Hins.
  rewrite Hc12, Hz12 in Hins. change (16 * 2) with 32 in Hins.
  change (Z.of_nat 12 + 1) with 13 in Hins.
  set (m13 := resize_map hash_func _ 16) in Hins.
  destruct (insert_absent_spec hash_func m12 k v Hwf12 Hc)
    as (m13' & Hins' & Hwf13 & Hz13 & Hp13 & _).
  assert (m13' = m13) as -> by congruence.
  assert (insert_all hash_func kvs HashMap_default = Ret m13) as Hall.
  { rewrite Hsplit at 1. rewrite insert_all_app, Hrun12. simpl. by rewrite Hins. }
  exists m12, k, v, m13. split_and!; try done.
  - subst m13.
    destruct (resize_map_spec hash_func
                (with_size (push_element hash_func m12 (k, v)) 13) 32) as (_ & Hcap & _).
    + destruct Hwf12 as [Hs12 Hnd12 Hsz12].
      destruct (push_element_spec hash_func m12 (k, v) Hs12) as (Hs1 & _ & _ & Hp1).
      apply wf_with_size; [done| |].
      * rewrite Hp1, Hp12, <-Hsplit. done.
      * rewrite Hp1, Hp12, <-Hsplit, Hlen. done.
    + lia.
    + simpl in Hcap. rewrite Hc12 in Hcap. exact Hcap.
  - rewrite Hz13, Hz12. done.
  - intros k' v' Hin. apply (at_elements hash_func m13 k' v' Hwf13).
    rewrite Hp13, Hp12, <-Hsplit. done.
Qed.

Lemma thirteen_inserts_grow_once_witness :
  NoDup IntMap.thirteen.*1 ∧ length IntMap.thirteen = 13%nat ∧
  ∃ m12 k v m13,
    insert_all IntMap.hash_int (take 12 IntMap.thirteen) HashMap_default = Ret m12 ∧
    IntMap.thirteen !! 12%nat = Some (k, v) ∧
    insert IntMap.hash_int k v m12 = Ret (true, m13) ∧
    m13 = resize_map IntMap.hash_int
            (with_capacity (with_size (push_element IntMap.hash_int m12 (k, v)) 13) 32)
            16 ∧
    insert_all IntMap.hash_int IntMap.thirteen HashMap_default = Ret m13 ∧
    _capacity m13 = 32 ∧ _size m13 = 13 ∧
    ∀ k' v', (k', v') ∈ IntMap.thirteen → at_ IntMap.hash_int k' m13 = Ret v'.
Proof.
  assert (NoDup IntMap.thirteen.*1) as Hnd
    by (apply (bool_decide_unpack _); vm_compute; exact I).
  split; [exact Hnd|]. split; [reflexivity|].
  apply (thirteen_inserts_grow_once IntMap.hash_int IntMap.thirteen Hnd eq_refl).
Defined.

(** ** The steps of [update] and of the two-vector constructor *)

Section Merge.
Context {K V : Type} `{!EqDecision K, !EqDecision V}.
Variable hash_func : K → N.
Implicit Types (m : @HashMap K V) (key : K) (value : V).
Implicit Types (kvs : list (K * V)).

(** A pair the table already holds changes nothing. *)
Lemma put_same m key value :
  wf hash_func m → at_ hash_func key m = Ret value →
  put hash_func key value m = Ret m.
Proof.
  intros Hwf Hat. pose proof (wf_shaped _ _ Hwf) as Hs. unfold put.
  assert (overwrite_bucket key value (bucket m (get_hash_index hash_func m key))
          = bucket m (get_hash_index hash_func m key)) as ->.
  { unfold overwrite_bucket. rewrite <-(list_fmap_id (bucket _ _)) at 2.
    apply list_fmap_ext. intros i [k v] He. simpl.
    case_decide as Hk; [|done]. case_decide as Hv; [|done]. subst k.
    exfalso. apply Hv. symmetry.
    apply list_elem_of_lookup_2, bucket_elements in He.
    apply (at_elements hash_func m key v Hwf) in He. congruence. }
  rewrite set_bucket_same by done.
  rewrite insert_present; [done|].
  destruct (at_cases hash_func m key) as [(? & _ & ?)|[? _]]; [done|congruence].
Qed.

(** For a key the table does not hold, the step is the [insert] call. *)
Lemma put_absent m key value :
  wf hash_func m → contains_key hash_func key m = false →
  put hash_func key value m = r ← insert hash_func key value m; Ret r.2.
Proof.
  intros Hwf Hc. unfold put.
  rewrite overwrite_bucket_absent by (by apply find_key_None, contains_key_find).
  by rewrite set_bucket_same by apply Hwf.
Qed.

Lemma last_value_None k kvs : last_value k kvs = None ↔ k ∉ kvs.*1.
Proof.
  rewrite <-last_value_is_Some. apply eq_None_not_Some.
Qed.

Lemma last_value_last kvs (i : nat) k v :
  kvs !! i = Some (k, v) →
  (∀ (j : nat) kv, (i < j)%nat → kvs !! j = Some kv → kv.1 ≠ k) →
  last_value k kvs = Some v.
Proof.
  revert i. induction kvs as [|[k0 v0] kvs IH]; intros i Hi Hlast; [done|].
  rewrite last_value_cons. destruct i as [|i]; simpl in Hi.
  - injection Hi as -> ->.
    assert (last_value k kvs = None) as ->.
    { apply last_value_None. intros (kv & Hk & [j Hj]%list_elem_of_lookup_1)%list_elem_of_fmap.
      apply (Hlast (S j) kv ltac:(lia) Hj). done. }
    by rewrite decide_True.
  - rewrite (IH i Hi); [done|].
    intros j kv Hj Hkv. apply (Hlast (S j) kv ltac:(lia) Hkv).
Qed.
End Merge.

(** C8.  [Dictionary::update] takes the pairs once, in order, and always
    returns.  A pair whose key is present leaves the size alone and makes the
    stored value the new one, the table staying as it is when the two values
    are equal; a pair whose key is absent goes in through [insert].  Keys
    other than the pair's keep their values.  In the end every key of the
    sequence has the value of its last pair, and the size is the number of
    different keys, old and new. *)
Theorem update_merges (hash_s : string → N) (d : Dictionary)
    (its : list (string * string)) :
  wf hash_s d →
  ∃ d', update hash_s its d = Ret d' ∧ wf hash_s d' ∧
        (∀ k, at_ hash_s k d'
              = match last_value k its with
                | Some v => Ret v
                | None => at_ hash_s k d
                end) ∧
        _size d' = Z.of_nat (length (remove_dups ((elements d).*1 ++ its.*1))) ∧
        (∀ k v its', its = (k, v) :: its' →
           ∃ d1, update hash_s its' d1 = Ret d' ∧ wf hash_s d1 ∧
                 at_ hash_s k d1 = Ret v ∧
                 (∀ k', k' ≠ k → at_ hash_s k' d1 = at_ hash_s k' d) ∧
                 match at_ hash_s k d with
                 | Ret old => _size d1 = _size d ∧ (v = old → d1 = d)
                 | _ => insert hash_s k v d = Ret (true, d1) ∧
                        _size d1 = _size d + 1
                 end).
Proof.
  intros Hwf. rewrite update_put_all.
  destruct (put_all_spec hash_s its d Hwf) as (d' & Hrun & Hwf' & Hat & _).
  exists d'. split_and!; [done|done|done| |].
  - rewrite (wf_size _ _ Hwf'), <-(length_fmap fst).
    by rewrite (put_all_keys hash_s its d d' Hwf Hwf' Hat).
  - intros k v its' ->. simpl in Hrun.
    destruct (put_spec hash_s d k v Hwf) as (d1 & Hput & Hwf1 & Hat1 & Hz1 & _).
    rewrite Hput in Hrun. simpl in Hrun.
    exists d1. rewrite update_put_all. split_and!; [done|done| | |].
    + by rewrite Hat1, decide_True.
    + intros k' Hk'. by rewrite Hat1, decide_False.
    + destruct (at_cases hash_s d k) as [(old & Hold & Hc)|[Hthrow Hc]].
      * rewrite Hold. rewrite Hc in Hz1. split; [lia|].
        intros ->. rewrite (put_same hash_s d k old Hwf Hold) in Hput. congruence.
      * rewrite Hthrow. rewrite Hc in Hz1. split; [|done].
        rewrite (put_absent hash_s d k v Hwf Hc) in Hput.
        destruct (insert_absent_spec hash_s d k v Hwf Hc) as (m' & Hins & _).
        rewrite Hins in Hput |- *. simpl in Hput. by injection Hput as ->.
Qed.

Lemma update_merges_witness :
  wf StrMap.hash_len StrMap.single_a ∧
  ∃ d', update StrMap.hash_len [("a", "9"); ("z", "26")] StrMap.single_a = Ret d' ∧
        at_ StrMap.hash_len "a" d' = Ret "9" ∧
        at_ StrMap.hash_len "z" d' = Ret "26" ∧
        _size d' = 2.
Proof.
  split; [apply wf_single_a|].
  destruct (update_merges StrMap.hash_len StrMap.single_a
              [("a", "9"); ("z", "26")] wf_single_a)
    as (d' & Hrun & _ & Hat & Hsize & _).
  exists d'. split; [exact Hrun|]. split; [apply (Hat "a")|].
  split; [apply (Hat "z")|]. exact Hsize.
Defined.

(** C10.  The two-vector constructor on sequences of equal length succeeds,
    whether keys repeat or not.  The table has one entry per different key,
    its size is their number, and a key has the value paired with its last
    occurrence. *)
Theorem HashMap_vectors_last_wins {K V : Type} `{!EqDecision K, !EqDecision V}
    (hash_func : K → N) (keys : list K) (values : list V) :
  length keys = length values →
  ∃ m, HashMap_vectors hash_func keys values = Ret m ∧ wf hash_func m ∧
       (elements m).*1 ≡ₚ remove_dups keys ∧
       _size m = Z.of_nat (length (remove_dups keys)) ∧
       (∀ k, at_ hash_func k m
             = match last_value k (zip keys values) with
               | Some v => Ret v
               | None => Throw KeyNotFound
               end) ∧
       (∀ (i : nat) k v,
          keys !! i = Some k → values !! i = Some v →
          (∀ j : nat, (i < j)%nat → keys !! j ≠ Some k) →
          at_ hash_func k m = Ret v).
Proof.
  intros Hlen. unfold HashMap_vectors. rewrite decide_False by (by intros ?).
  assert (wf hash_func (@HashMap_default K V)) as Hwf0 by (by apply wf_new).
  destruct (put_all_spec hash_func (zip keys values) HashMap_default Hwf0)
    as (m & Hrun & Hwf & Hat & _).
  pose proof (put_all_keys hash_func (zip keys values) HashMap_default m Hwf0 Hwf Hat)
    as Hkeys.
  assert (elements (@HashMap_default K V) = []) as E0 by apply concat_replicate_nil.
  rewrite fst_zip, E0 in Hkeys by lia. simpl in Hkeys.
  assert (∀ k, at_ hash_func k m
               = match last_value k (zip keys values) with
                 | Some v => Ret v
                 | None => Throw KeyNotFound
                 end) as Hat'.
  { intros k. rewrite Hat. destruct (last_value k _); [done|].
    destruct (at_cases hash_func (@HashMap_default K V) k)
      as [(v & Hv & _)|[Hv _]]; [|done].
    apply (at_elements hash_func _ k v Hwf0) in Hv.
    rewrite E0 in Hv. by apply elem_of_nil in Hv. }
  exists m. split_and!; [done|done|done| |done|].
  - by rewrite (wf_size _ _ Hwf), <-(length_fmap fst), Hkeys.
  - intros i k v Hk Hv Hlast. rewrite Hat'.
    rewrite (last_value_last (zip keys values) i k v); [done| |].
    + by apply lookup_zip_Some.
    + intros j [k' v'] Hj [Hk' _]%lookup_zip_Some. simpl. intros ->.
      by apply (Hlast j Hj).
Qed.

Lemma HashMap_vectors_last_wins_witness :
  length [1; 2; 1; 17] = length [10; 20; 30; 40] ∧
  ∃ m, HashMap_vectors IntMap.hash_int [1; 2; 1; 17] [10; 20; 30; 40] = Ret m ∧
       _size m = 3 ∧ at_ IntMap.hash_int 1 m = Ret 30.
Proof.
  split; [reflexivity|].
  destruct (HashMap_vectors_last_wins IntMap.hash_int [1; 2; 1; 17] [10; 20; 30; 40]
              eq_refl) as (m & Hrun & _ & _ & Hsize & Hat & _).
  exists m. split; [exact Hrun|]. split; [exact Hsize|]. apply (Hat 1).
Defined.

(** ** Bucket 0 and the iterator *)

Section BucketZero.
Context {K V : Type} `{!EqDecision K, !EqDecision V}.
Variable hash_func : K → N.
Implicit Types (m hm this rhs : @HashMap K V) (key : K) (value : V).

(** A traversal visits every entry but those of bucket 0. *)
Lemma traverse_elements m :
  wf hash_func m →
  ∃ l, traverse m = Ret l ∧ elements m = bucket m 0 ++ l.
Proof.
  intros [[Hc Hl _] _ _]. exists (concat (drop 1 (_map m))).
  split; [by apply traverse_spec|].
  unfold elements, bucket. destruct (_map m) as [|b0 bs]; simpl in *; [lia|].
  by rewrite drop_0.
Qed.

(** No key of bucket 0 is visited. *)
Lemma traverse_misses m key :
  wf hash_func m → get_hash_index hash_func m key = 0 →
  ∃ l, traverse m = Ret l ∧ key ∉ l.*1.
Proof.
  intros Hwf Hidx. destruct (traverse_elements m Hwf) as (l & Hrun & Hel).
  exists l. split; [done|].
  intros (e & -> & He)%list_elem_of_fmap.
  destruct Hwf as [Hs Hnd _].
  assert (e ∈ bucket m 0) as Hb.
  { rewrite <-Hidx. apply (elements_bucket hash_func m e Hs).
    rewrite Hel. apply elem_of_app. by right. }
  rewrite Hel, fmap_app in Hnd. apply NoDup_app in Hnd as (_ & Hdisj & _).
  apply (Hdisj e.1); by apply list_elem_of_fmap_2.
Qed.

Lemma list_for_insert_all (l : list (K * V)) this :
  list_for (R := Empty_set) l
    (λ element this', r ← insert hash_func element.1 element.2 this';
                      Ret (Continue r.2)) this
  = this' ← insert_all hash_func l this; Ret (Continue this').
Proof.
  revert this. induction l as [|[k v] l IH]; intros this; simpl; [done|].
  destruct (insert hash_func k v this) as [r| | |]; simpl; [apply IH|done..].
Qed.

Lemma insert_from_spec hm this :
  length (_map hm) = Z.to_nat (_capacity hm) → 1 ≤ _capacity hm →
  insert_from hash_func hm this
  = insert_all hash_func (concat (drop 1 (_map hm))) this.
Proof.
  intros Hl Hc. unfold insert_from.
  rewrite range_for_spec, list_for_insert_all by done.
  by destruct (insert_all _ _ _).
Qed.

(** The copy has the capacity of the source and the entries of its buckets
    of index 1 and above. *)
Lemma HashMap_copy_spec hm :
  wf hash_func hm → 4 * _size hm ≤ 3 * _capacity hm →
  ∃ c, HashMap_copy hash_func hm = Ret c ∧ wf hash_func c ∧
       _capacity c = _capacity hm ∧
       elements hm ≡ₚ bucket hm 0 ++ elements c.
Proof.
  intros Hwf Hload. pose proof Hwf as [[Hc Hl _] Hnd Hsz].
  destruct (traverse_elements hm Hwf) as (l & Hrun & Hel).
  rewrite traverse_spec in Hrun by done. injection Hrun as Hrun.
  unfold HashMap_copy. rewrite insert_from_spec, Hrun by done.
  set (c0 := mkHashMap (new_map (_capacity hm)) INITIAL_SIZE (_capacity hm)).
  assert (elements c0 = []) as E0 by apply concat_replicate_nil.
  destruct (insert_all_spec hash_func l c0) as (c & Hins & Hwfc & Hp & Hz & Hsame).
  - by apply wf_new.
  - rewrite Hel, fmap_app in Hnd. by apply NoDup_app in Hnd as (_ & _ & ?).
  - intros k _. rewrite E0. apply not_elem_of_nil.
  - exists c. rewrite E0 in Hp. simpl in Hp. split_and!; [done|done| |by rewrite Hel, Hp].
    rewrite Hsame.
    + simpl. by destruct (foldl_push_element_spec hash_func l c0
                            (wf_shaped _ _ (wf_new hash_func _ _ Hc eq_refl)))
        as (_ & -> & _).
    + simpl. rewrite Hsz, Hel, length_app in Hload. unfold INITIAL_SIZE. lia.
Qed.

(** [operator==] always returns, and returns [true] exactly when the sizes
    agree and [rhs] has every entry of the buckets of index 1 and above. *)
Lemma op_eq_spec this rhs :
  length (_map this) = Z.to_nat (_capacity this) → 1 ≤ _capacity this →
  ∃ b, op_eq hash_func this rhs = Ret b ∧
       (b = true ↔
        _size this = _size rhs ∧
        Forall (λ elem : K * V, at_ hash_func elem.1 rhs = Ret elem.2)
               (concat (drop 1 (_map this)))).
Proof.
  intros Hl Hc. unfold op_eq. case_decide as Hsz; simpl.
  { exists false. split; [done|]. split; [done|]. by intros [? _]. }
  rewrite range_for_spec by done.
  generalize (concat (drop 1 (_map this))). intros l.
  assert (∃ b, try_catch
                 (c ← list_for l
                        (λ elem (_ : ()),
                           v ← at_ hash_func elem.1 rhs;
                           if decide (v ≠ elem.2) then Ret (Return false)
                           else Ret (Continue ())) ();
                  match c with
                  | Continue _ => Ret true
                  | Return r => Ret r
                  end) (Ret false) = Ret b ∧
               (b = true ↔
                Forall (λ elem : K * V, at_ hash_func elem.1 rhs = Ret elem.2) l))
    as (b & Hrun & Hb).
  { induction l as [|e l IH]; simpl.
    - exists true. split; [done|]. split; [by constructor|done].
    - destruct (at_cases hash_func rhs e.1) as [(v & Hv & _)|[Hv _]]; rewrite Hv; simpl.
      + case_decide as Hne; simpl.
        * exists false. split; [done|]. split; [done|].
          intros [Hhd _]%Forall_cons. congruence.
        * destruct IH as (b & Hrun & Hb). exists b. split; [done|].
          rewrite Hb, Forall_cons. split; [|by intros [_ ?]].
          intros HF. split; [congruence|done].
      + exists false. split; [done|]. split; [done|].
        intros [Hhd _]%Forall_cons. congruence. }
  exists b. split; [done|]. rewrite Hb. tauto.
Qed.
End BucketZero.

(** C1 fails on the table that holds the single key 0, which hashes to
    bucket 0: [begin ()] is already [end ()], and the traversal visits
    nothing although the entry is live.  [traverse_spec] is the general
    form: a traversal visits the buckets from index 1 on. *)
Theorem traversal_misses_bucket_0 :
  insert IntMap.hash_int 0 1 IntMap.fresh = Ret (true, IntMap.single 0 1) ∧
  elements (IntMap.single 0 1) = [(0, 1)] ∧
  at_ IntMap.hash_int 0 (IntMap.single 0 1) = Ret 1 ∧
  cbegin (IntMap.single 0 1) = cend (IntMap.single 0 1) ∧
  traverse (IntMap.single 0 1) = Ret [].
Proof. by split_and!. Qed.

(** C3 fails on the same table: the copy has the capacity of the source and
    no entry at all. *)
Theorem copy_loses_bucket_0 :
  reachable IntMap.hash_int (IntMap.single 0 1) ∧
  _size (IntMap.single 0 1) = 1 ∧
  at_ IntMap.hash_int 0 (IntMap.single 0 1) = Ret 1 ∧
  ∃ c, HashMap_copy IntMap.hash_int (IntMap.single 0 1) = Ret c ∧
       _capacity c = _capacity (IntMap.single 0 1) ∧
       _size c = 0 ∧
       at_ IntMap.hash_int 0 c = Throw KeyNotFound.
Proof.
  split; [apply reachable_single_0|]. split; [done|]. split; [done|].
  eexists. split; [reflexivity|]. by split_and!.
Qed.

(** C6 fails on two tables that hold key 0 with different values: the loop
    of [operator==] runs over no entry and the answer is [true]. *)
Theorem op_eq_ignores_bucket_0 :
  reachable IntMap.hash_int (IntMap.single 0 1) ∧
  reachable IntMap.hash_int (IntMap.single 0 2) ∧
  at_ IntMap.hash_int 0 (IntMap.single 0 1) = Ret 1 ∧
  at_ IntMap.hash_int 0 (IntMap.single 0 2) = Ret 2 ∧
  op_eq IntMap.hash_int (IntMap.single 0 1) (IntMap.single 0 2) = Ret true ∧
  op_neq IntMap.hash_int (IntMap.single 0 1) (IntMap.single 0 2) = Ret false.
Proof.
  split; [apply reachable_single_0|]. split; [|by split_and!].
  apply (reach_insert IntMap.hash_int 0 2 IntMap.fresh (true, IntMap.single 0 2));
    [apply reach_default | reflexivity].
Qed.

(** ** The spec's scenario on the string table, run on the model *)

Example dictionary_scenario :
  ∃ d d2,
    Dictionary_vectors StrMap.hash_len ["a"; "b"; "c"] ["1"; "2"; "3"] = Ret d ∧
    _size d = 3 ∧ at_ StrMap.hash_len "b" d = Ret "2" ∧
    Dictionary_erase StrMap.hash_len "b" d = Ret (true, d2) ∧
    _size d2 = 2 ∧
    Dictionary_erase StrMap.hash_len "b" d2 = Throw (InvalidKey INVALID_KEY).
Proof.
  let r := eval vm_compute in
             (Dictionary_vectors StrMap.hash_len ["a"; "b"; "c"] ["1"; "2"; "3"]) in
  match r with
  | Ret ?d =>
      exists d;
      let r2 := eval vm_compute in (Dictionary_erase StrMap.hash_len "b" d) in
      match r2 with Ret (_, ?d2) => exists d2 end
  end.
  split_and!; by vm_compute.
Qed.

(** * Further properties of the code *)

Section Views.
Context {K V : Type} `{!EqDecision K, !EqDecision V}.
Variable hash_func : K → N.
Implicit Types (m hm this rhs : @HashMap K V) (key : K) (value : V).

(** Tables that answer [at] alike have the same size. *)
Lemma same_view_same_size m m' :
  wf hash_func m → wf hash_func m' →
  (∀ k, at_ hash_func k m = at_ hash_func k m') → _size m = _size m'.
Proof.
  intros Hm Hm' Hview.
  rewrite (wf_size _ _ Hm), (wf_size _ _ Hm'), <-!(length_fmap fst).
  f_equal. apply Permutation_length, NoDup_Permutation; [apply Hm|apply Hm'|].
  intros k. rewrite (keys_at hash_func m k Hm), (keys_at hash_func m' k Hm').
  by setoid_rewrite Hview.
Qed.

Lemma contains_key_at m key :
  contains_key hash_func key m = true ↔ ∃ v, at_ hash_func key m = Ret v.
Proof.
  destruct (at_cases hash_func m key) as [(v & Hv & Hc)|[Hv Hc]]; rewrite Hv, Hc.
  - split; eauto.
  - split; [done|]. by intros [? [=]].
Qed.

Lemma insert_absent_view m key value :
  wf hash_func m → contains_key hash_func key m = false →
  ∃ m', insert hash_func key value m = Ret (true, m') ∧ wf hash_func m' ∧
        _size m' = _size m + 1 ∧
        ∀ k, at_ hash_func k m'
             = if decide (k = key) then Ret value else at_ hash_func k m.
Proof.
  intros Hwf Hc.
  destruct (insert_absent_spec hash_func m key value Hwf Hc)
    as (m' & Hins & Hwf' & Hz & Hp & _).
  exists m'. split_and!; [done..|]. by apply at_after_add.
Qed.

Lemma shrink_loop_capacity fuel m :
  wf hash_func m → (Z.to_nat (_capacity m) ≤ fuel)%nat →
  ∀ m', shrink_loop hash_func fuel false m = Ret m' → _capacity m' ≤ _capacity m.
Proof.
  revert m. induction fuel as [|fuel IH]; intros m Hwf Hfuel m';
    pose proof (shaped_capacity _ _ (wf_shaped _ _ Hwf)) as Hc; [lia|].
  simpl. unfold below_lower, MIN_CAPACITY. rewrite andb_true_r.
  case_bool_decide as Hlow; simpl; [case_bool_decide as Hmin; simpl|].
  - assert (1 ≤ _capacity m `quot` 2 < _capacity m) as Hq.
    { rewrite Z.quot_div_nonneg by lia. split.
      - apply Z.div_le_lower_bound; lia.
      - apply Z.div_lt; lia. }
    destruct (resize_map_spec hash_func m (_capacity m `quot` 2) Hwf ltac:(lia))
      as (Hwf1 & Hc1 & _).
    intros Hrun. apply (IH _ Hwf1 ltac:(lia)) in Hrun. lia.
  - intros [= <-]. lia.
  - intros [= <-]. lia.
Qed.
End Views.

(** X1.  For a capacity that is a power of two the bucket index is the hash
    modulo the capacity, and lies below the capacity. *)
Theorem get_hash_index_mod {K V : Type} (hash_func : K → N)
    (m : @HashMap K V) (key : K) :
  is_pow2 (_capacity m) →
  get_hash_index hash_func m key = Z.of_N (hash_func key) `mod` _capacity m ∧
  0 ≤ get_hash_index hash_func m key < _capacity m.
Proof.
  intros Hp. pose proof (is_pow2_pos _ Hp) as Hc.
  split; [|by apply get_hash_index_range].
  destruct Hp as [n Hn]. unfold get_hash_index. rewrite Hn.
  replace (2 ^ Z.of_nat n - 1) with (Z.ones (Z.of_nat n))
    by (rewrite Z.ones_equiv; lia).
  apply Z.land_ones. lia.
Qed.

Lemma get_hash_index_mod_witness :
  is_pow2 (_capacity IntMap.fresh) ∧
  get_hash_index IntMap.hash_int IntMap.fresh 35 = 3.
Proof.
  assert (is_pow2 (_capacity IntMap.fresh)) as Hp by (by exists 4%nat).
  split; [exact Hp|].
  destruct (get_hash_index_mod IntMap.hash_int IntMap.fresh 35 Hp) as [-> _].
  reflexivity.
Defined.

(** X2.  [insert] of a key the table does not hold returns [true]; afterwards
    [at] gives the inserted value for that key, [contains_key] is true, the
    size is one more and every other key answers as before. *)
Theorem insert_then_lookup {K V : Type} `{!EqDecision K, !EqDecision V}
    (hash_func : K → N) (m : @HashMap K V) (key : K) (value : V) :
  wf hash_func m → contains_key hash_func key m = false →
  ∃ m', insert hash_func key value m = Ret (true, m') ∧ wf hash_func m' ∧
        at_ hash_func key m' = Ret value ∧
        contains_key hash_func key m' = true ∧
        _size m' = _size m + 1 ∧
        ∀ k, k ≠ key → at_ hash_func k m' = at_ hash_func k m.
Proof.
  intros Hwf Hc.
  destruct (insert_absent_view hash_func m key value Hwf Hc)
    as (m' & Hins & Hwf' & Hz & Hat).
  assert (at_ hash_func key m' = Ret value) as Hkey
    by (by rewrite Hat, decide_True).
  exists m'. split_and!; [done|done|done| |done|].
  - apply contains_key_at. eauto.
  - intros k Hk. by rewrite Hat, decide_False.
Qed.

Lemma insert_then_lookup_witness :
  wf IntMap.hash_int (IntMap.single 1 1) ∧
  contains_key IntMap.hash_int 17 (IntMap.single 1 1) = false ∧
  ∃ m', insert IntMap.hash_int 17 5 (IntMap.single 1 1) = Ret (true, m') ∧
        at_ IntMap.hash_int 17 m' = Ret 5 ∧ at_ IntMap.hash_int 1 m' = Ret 1.
Proof.
  assert (contains_key IntMap.hash_int 17 (IntMap.single 1 1) = false) as Hc
    by reflexivity.
  split; [apply wf_single_1|]. split; [exact Hc|].
  destruct (insert_then_lookup IntMap.hash_int (IntMap.single 1 1) 17 5
              wf_single_1 Hc) as (m' & Hins & _ & Hat & _ & _ & Hother).
  exists m'. split; [exact Hins|]. split; [exact Hat|].
  rewrite (Hother 1); [reflexivity|lia].
Defined.

(** X3.  [insert] of an absent key followed by [erase] of that key gives a
    table of the old size in which every key answers [at] as before. *)
Theorem insert_then_erase {K V : Type} `{!EqDecision K, !EqDecision V}
    (hash_func : K → N) (m : @HashMap K V) (key : K) (value : V) :
  wf hash_func m → contains_key hash_func key m = false →
  ∃ m1 m2, insert hash_func key value m = Ret (true, m1) ∧
           erase hash_func key m1 = Ret (true, m2) ∧ wf hash_func m2 ∧
           _size m2 = _size m ∧
           ∀ k, at_ hash_func k m2 = at_ hash_func k m.
Proof.
  intros Hwf Hc.
  destruct (insert_absent_view hash_func m key value Hwf Hc)
    as (m1 & Hins & Hwf1 & Hz1 & Hat1).
  assert (contains_key hash_func key m1 = true) as Hc1.
  { apply contains_key_at. exists value. by rewrite Hat1, decide_True. }
  destruct (erase_present_view hash_func m1 key Hwf1 Hc1)
    as (m2 & Her & Hwf2 & Hz2 & Hc2 & Hat2).
  exists m1, m2. split_and!; [done|done|done|lia|].
  intros k. destruct (decide (k = key)) as [->|Hk].
  - destruct (at_cases hash_func m2 key) as [(? & _ & ?)|[-> _]]; [congruence|].
    destruct (at_cases hash_func m key) as [(? & _ & ?)|[-> _]]; [congruence|done].
  - by rewrite (Hat2 k Hk), Hat1, decide_False.
Qed.

Lemma insert_then_erase_witness :
  wf IntMap.hash_int (IntMap.single 1 1) ∧
  contains_key IntMap.hash_int 17 (IntMap.single 1 1) = false ∧
  ∃ m1 m2, insert IntMap.hash_int 17 5 (IntMap.single 1 1) = Ret (true, m1) ∧
           erase IntMap.hash_int 17 m1 = Ret (true, m2) ∧
           _size m2 = 1 ∧ at_ IntMap.hash_int 1 m2 = Ret 1.
Proof.
  assert (contains_key IntMap.hash_int 17 (IntMap.single 1 1) = false) as Hc
    by reflexivity.
  split; [apply wf_single_1|]. split; [exact Hc|].
  destruct (insert_then_erase IntMap.hash_int (IntMap.single 1 1) 17 5
              wf_single_1 Hc) as (m1 & m2 & Hins & Her & _ & Hz & Hat).
  exists m1, m2. split; [exact Hins|]. split; [exact Her|].
  split; [exact Hz|]. by rewrite Hat.
Defined.

(** X4.  [erase] of a present key followed by [insert] of the key with the
    value it had gives a table of the old size in which every key answers
    [at] as before. *)
Theorem erase_then_insert {K V : Type} `{!EqDecision K, !EqDecision V}
    (hash_func : K → N) (m : @HashMap K V) (key : K) (value : V) :
  wf hash_func m → at_ hash_func key m = Ret value →
  ∃ m1 m2, erase hash_func key m = Ret (true, m1) ∧
           insert hash_func key value m1 = Ret (true, m2) ∧ wf hash_func m2 ∧
           _size m2 = _size m ∧
           ∀ k, at_ hash_func k m2 = at_ hash_func k m.
Proof.
  intros Hwf Hat.
  assert (contains_key hash_func key m = true) as Hc
    by (apply contains_key_at; eauto).
  destruct (erase_present_view hash_func m key Hwf Hc)
    as (m1 & Her & Hwf1 & Hz1 & Hc1 & Hat1).
  destruct (insert_absent_view hash_func m1 key value Hwf1 Hc1)
    as (m2 & Hins & Hwf2 & Hz2 & Hat2).
  exists m1, m2. split_and!; [done|done|done|lia|].
  intros k. rewrite Hat2. case_decide as Hk; [by subst|by apply Hat1].
Qed.

Lemma erase_then_insert_witness :
  wf IntMap.hash_int (IntMap.single 1 1) ∧
  at_ IntMap.hash_int 1 (IntMap.single 1 1) = Ret 1 ∧
  ∃ m1 m2, erase IntMap.hash_int 1 (IntMap.single 1 1) = Ret (true, m1) ∧
           insert IntMap.hash_int 1 1 m1 = Ret (true, m2) ∧
           _size m2 = 1 ∧ at_ IntMap.hash_int 1 m2 = Ret 1.
Proof.
  assert (at_ IntMap.hash_int 1 (IntMap.single 1 1) = Ret 1) as Hat1
    by reflexivity.
  split; [apply wf_single_1|]. split; [exact Hat1|].
  destruct (erase_then_insert IntMap.hash_int (IntMap.single 1 1) 1 1
              wf_single_1 Hat1) as (m1 & m2 & Her & Hins & _ & Hz & Hat).
  exists m1, m2. split; [exact Her|]. split; [exact Hins|].
  split; [exact Hz|]. by rewrite Hat.
Defined.

Section Capacity.
Context {K V : Type} `{!EqDecision K, !EqDecision V}.
Variable hash_func : K → N.
Implicit Types (m hm this rhs : @HashMap K V) (key : K) (value : V).

Lemma foldl_push_fields (l : list (K * V)) m :
  _capacity (foldl (push_element hash_func) m l) = _capacity m ∧
  _size (foldl (push_element hash_func) m l) = _size m.
Proof.
  revert m. induction l as [|e l IH]; intros m; simpl; [done|].
  destruct (IH (push_element hash_func m e)) as [-> ->]. done.
Qed.

Lemma resize_map_fields m old_size :
  _capacity (resize_map hash_func m old_size) = _capacity m ∧
  _size (resize_map hash_func m old_size) = _size m.
Proof.
  unfold resize_map. rewrite move_elements_from_concat.
  destruct (foldl_push_fields (concat (take (Z.to_nat old_size) (_map m)))
              (with_map m (new_map (_capacity m)))) as [-> ->]. done.
Qed.

(** [erase] on a present key: the entry leaves its bucket, the size goes
    down, and the second loop of [handle_resize] runs on the result. *)
Lemma erase_present_unfold m key :
  wf hash_func m → contains_key hash_func key m = true →
  ∃ m2, wf hash_func m2 ∧ _capacity m2 = _capacity m ∧
        _size m2 = _size m - 1 ∧
        erase hash_func key m
        = (shrink_loop hash_func (Z.to_nat (_capacity m2)) false m2
           ≫= λ m3, Ret (true, m3)).
Proof.
  intros Hwf Hpres. pose proof Hwf as [Hs Hnd Hsz].
  unfold contains_key in Hpres. unfold erase.
  destruct (find_key _ _) as [[j [k v]]|] eqn:Hf; [clear Hpres|done].
  apply find_key_Some in Hf as [Hj Hk]. simpl in Hk. subst k.
  set (m1 := set_bucket m (get_hash_index hash_func m key)
               (delete j (bucket m (get_hash_index hash_func m key)))).
  assert (shaped hash_func m1) as Hs1.
  { apply set_bucket_shaped; [done|]. intros e He%list_elem_of_delete_inv.
    apply (bucket_hash hash_func m _ _ Hs); [|done].
    apply get_hash_index_range, Hs. }
  assert (elements m ≡ₚ (key, v) :: elements m1) as Hp1.
  { subst m1.
    destruct (set_bucket_split hash_func m key
                (delete j (bucket m (get_hash_index hash_func m key))) Hs)
      as (pre & post & -> & ->).
    rewrite (delete_Permutation _ j (key, v) Hj) at 1.
    simpl. by rewrite <-Permutation_middle. }
  exists (with_size m1 (_size m1 - 1)). split_and!; [|done|done|].
  - apply wf_with_size; [done| |].
    + rewrite Hp1 in Hnd. simpl in Hnd. by apply NoDup_cons in Hnd as [_ ?].
    + simpl. rewrite Hsz, Hp1. simpl. lia.
  - unfold handle_resize. by rewrite grow_loop_false.
Qed.
End Capacity.

(** X5.  On a table whose load factor is at most 0.75, [insert] either keeps
    the capacity or doubles it once: it doubles exactly when the key goes in
    and the new size is above three quarters of the capacity. *)
Theorem insert_capacity_step {K V : Type} `{!EqDecision K, !EqDecision V}
    (hash_func : K → N) (m : @HashMap K V) (key : K) (value : V) b m' :
  wf hash_func m → 4 * _size m ≤ 3 * _capacity m →
  insert hash_func key value m = Ret (b, m') →
  _capacity m'
  = if b && bool_decide (3 * _capacity m < 4 * (_size m + 1))
    then 2 * _capacity m else _capacity m.
Proof.
  intros Hwf Hload Hrun.
  pose proof (shaped_capacity _ _ (wf_shaped _ _ Hwf)) as Hc.
  destruct (contains_key hash_func key m) eqn:Hcon.
  - rewrite (insert_present hash_func m key value Hcon) in Hrun.
    by injection Hrun as <- <-.
  - case_bool_decide as Hgrow.
    + rewrite (insert_grows_once hash_func m key value Hwf Hcon) in Hrun by lia.
      injection Hrun as <- <-. simpl.
      destruct (resize_map_fields hash_func
                  (with_capacity (with_size (push_element hash_func m (key, value))
                                            (_size m + 1)) (_capacity m * 2))
                  (_capacity m)) as [-> _].
      simpl. lia.
    + destruct (insert_absent_spec hash_func m key value Hwf Hcon)
        as (m'' & Hins & _ & _ & _ & _ & _ & _ & Hsame).
      rewrite Hins in Hrun. injection Hrun as <- <-.
      rewrite Hsame by lia. by rewrite andb_false_r.
Qed.

Lemma insert_capacity_step_witness :
  wf IntMap.hash_int IntMap.fresh ∧
  4 * _size IntMap.fresh ≤ 3 * _capacity IntMap.fresh ∧
  insert IntMap.hash_int 1 1 IntMap.fresh = Ret (true, IntMap.single 1 1) ∧
  _capacity (IntMap.single 1 1) = _capacity IntMap.fresh.
Proof.
  assert (wf IntMap.hash_int IntMap.fresh) as Hwf
    by apply reachable_inv, reachable_fresh.
  assert (4 * _size IntMap.fresh ≤ 3 * _capacity IntMap.fresh) as Hload
    by (vm_compute; discriminate).
  assert (insert IntMap.hash_int 1 1 IntMap.fresh = Ret (true, IntMap.single 1 1))
    as Hins by reflexivity.
  split; [exact Hwf|]. split; [exact Hload|]. split; [exact Hins|].
  exact (insert_capacity_step IntMap.hash_int IntMap.fresh 1 1 true
           (IntMap.single 1 1) Hwf Hload Hins).
Defined.

(** X6.  [erase] never raises the capacity and never takes it below 1; an
    [erase] that empties the table leaves it with capacity 1. *)
Theorem erase_capacity {K V : Type} `{!EqDecision K, !EqDecision V}
    (hash_func : K → N) (m : @HashMap K V) (key : K) b m' :
  wf hash_func m → erase hash_func key m = Ret (b, m') →
  1 ≤ _capacity m' ≤ _capacity m ∧ (b = true → _size m' = 0 → _capacity m' = 1).
Proof.
  intros Hwf Hrun.
  pose proof (shaped_capacity _ _ (wf_shaped _ _ Hwf)) as Hc.
  destruct (contains_key hash_func key m) eqn:Hcon.
  - destruct (erase_present_spec hash_func m key Hwf Hcon)
      as (m'' & v & Hrun' & Hwf' & _ & _ & _ & Hlo & _).
    rewrite Hrun' in Hrun. injection Hrun as <- <-.
    pose proof (shaped_capacity _ _ (wf_shaped _ _ Hwf')) as Hc'.
    destruct (erase_present_unfold hash_func m key Hwf Hcon)
      as (m2 & Hwf2 & Hc2 & _ & Hunf).
    rewrite Hunf in Hrun'.
    destruct (shrink_loop hash_func _ false m2) as [m3| | |] eqn:Hloop;
      simpl in Hrun'; try discriminate.
    injection Hrun' as ->.
    pose proof (shrink_loop_capacity hash_func _ m2 Hwf2 (Nat.le_refl _) _ Hloop).
    split; [lia|]. intros _ Hz. lia.
  - rewrite (erase_absent hash_func m key Hcon) in Hrun.
    injection Hrun as <- <-. split; [lia|done].
Qed.

Lemma erase_capacity_witness :
  wf IntMap.hash_int (IntMap.single 1 1) ∧
  ∃ m', erase IntMap.hash_int 1 (IntMap.single 1 1) = Ret (true, m') ∧
        _size m' = 0 ∧ _capacity m' = 1.
Proof.
  split; [apply wf_single_1|].
  eexists. split; [reflexivity|]. split; [reflexivity|].
  refine (proj2 (erase_capacity IntMap.hash_int (IntMap.single 1 1) 1 true _
                   wf_single_1 eq_refl) eq_refl eq_refl).
Defined.

(** X7.  [clear] keeps the capacity and leaves a well formed table of size 0
    in which no key is found. *)
Theorem clear_empties {K V : Type} `{!EqDecision K, !EqDecision V}
    (hash_func : K → N) (m : @HashMap K V) :
  1 ≤ _capacity m →
  wf hash_func (clear m) ∧
  _size (clear m) = 0 ∧ _capacity (clear m) = _capacity m ∧
  empty (clear m) = true ∧ elements (clear m) = [] ∧
  ∀ key, contains_key hash_func key (clear m) = false ∧
         at_ hash_func key (clear m) = Throw KeyNotFound.
Proof.
  intros Hc.
  assert (wf hash_func (clear m)) as Hwf by (by apply wf_new).
  assert (elements (clear m) = []) as E by apply concat_replicate_nil.
  split_and!; try done.
  intros key.
  destruct (at_cases hash_func (clear m) key) as [(v & Hv & _)|[Hv Hcon]]; [|done].
  apply (at_elements hash_func _ key v Hwf) in Hv. rewrite E in Hv.
  by apply elem_of_nil in Hv.
Qed.

Lemma clear_empties_witness :
  1 ≤ _capacity (IntMap.single 1 1) ∧
  _size (clear (IntMap.single 1 1)) = 0 ∧
  _capacity (clear (IntMap.single 1 1)) = 16 ∧
  at_ IntMap.hash_int 1 (clear (IntMap.single 1 1)) = Throw KeyNotFound.
Proof.
  assert (1 ≤ _capacity (IntMap.single 1 1)) as Hc by (vm_compute; discriminate).
  split; [exact Hc|].
  destruct (clear_empties IntMap.hash_int (IntMap.single 1 1) Hc)
    as (_ & Hz & Hcap & _ & _ & Hkey).
  split; [exact Hz|]. split; [exact Hcap|]. apply (Hkey 1).
Defined.

(** X8.  [operator[]] never throws on a well formed table.  For a present
    key it returns the stored value and leaves the table as it is; for an
    absent key it inserts the default value, returns it, and every other key
    answers as before. *)
Theorem index_access_contract {K V : Type}
    `{!EqDecision K, !EqDecision V, !Inhabited V}
    (hash_func : K → N) (m : @HashMap K V) (key : K) :
  wf hash_func m →
  ∃ v m', index_access hash_func key m = Ret (v, m') ∧ wf hash_func m' ∧
          at_ hash_func key m' = Ret v ∧
          (∀ k, k ≠ key → at_ hash_func k m' = at_ hash_func k m) ∧
          if contains_key hash_func key m
          then at_ hash_func key m = Ret v ∧ m' = m
          else v = inhabitant ∧ _size m' = _size m + 1 ∧
               insert hash_func key inhabitant m = Ret (true, m').
Proof.
  intros Hwf. unfold index_access.
  destruct (at_cases hash_func m key) as [(v & Hv & Hc)|[Hv Hc]]; rewrite Hv, Hc; simpl.
  - exists v, m. by split_and!.
  - destruct (insert_absent_view hash_func m key inhabitant Hwf Hc)
      as (m' & Hins & Hwf' & Hz & Hat).
    assert (at_ hash_func key m' = Ret inhabitant) as Hkey
      by (by rewrite Hat, decide_True).
    exists inhabitant, m'. rewrite Hins. simpl. rewrite Hkey. simpl.
    split_and!; try done.
    intros k Hk. by rewrite Hat, decide_False.
Qed.

Lemma index_access_contract_witness :
  wf IntMap.hash_int (IntMap.single 1 1) ∧
  ∃ m', index_access (Inhabited0 := IntMap.int_default) IntMap.hash_int 2
          (IntMap.single 1 1) = Ret (0, m') ∧
        at_ IntMap.hash_int 2 m' = Ret 0 ∧ at_ IntMap.hash_int 1 m' = Ret 1.
Proof.
  split; [apply wf_single_1|].
  destruct (index_access_contract (Inhabited0 := IntMap.int_default)
              IntMap.hash_int (IntMap.single 1 1) 2 wf_single_1)
    as (v & m' & Hrun & _ & Hat & Hother & Hcase).
  change (contains_key IntMap.hash_int 2 (IntMap.single 1 1)) with false in Hcase.
  destruct Hcase as (-> & _). exists m'.
  split; [exact Hrun|]. split; [exact Hat|].
  rewrite (Hother 1); [reflexivity|lia].
Defined.

(** X9.  The two-vector constructor throws exactly when the two lengths
    differ, and then with the length message; otherwise it returns a well
    formed table. *)
Theorem HashMap_vectors_throws_iff {K V : Type} `{!EqDecision K, !EqDecision V}
    (hash_func : K → N) (keys : list K) (values : list V) :
  (length keys ≠ length values ↔
   HashMap_vectors hash_func keys values = Throw LengthMismatch) ∧
  (length keys = length values ↔
   ∃ m, HashMap_vectors hash_func keys values = Ret m ∧ wf hash_func m).
Proof.
  unfold HashMap_vectors. case_decide as Hlen.
  - split; split; try done. by intros (? & [=] & _).
  - destruct (put_all_spec hash_func (zip keys values) HashMap_default)
      as (m & Hrun & Hwf & _); [by apply wf_new|].
    rewrite Hrun. split; split.
    all: intros; by eauto.
Qed.

(** X10.  [resize_map] to any capacity of at least 1 gives a well formed
    table of that capacity with the same size, in which every key answers
    [at] as before. *)
Theorem resize_map_preserves_lookup {K V : Type} `{!EqDecision K, !EqDecision V}
    (hash_func : K → N) (m : @HashMap K V) (c : Z) :
  wf hash_func m → 1 ≤ c →
  wf hash_func (resize_map hash_func (with_capacity m c) (_capacity m)) ∧
  _capacity (resize_map hash_func (with_capacity m c) (_capacity m)) = c ∧
  _size (resize_map hash_func (with_capacity m c) (_capacity m)) = _size m ∧
  ∀ key, at_ hash_func key (resize_map hash_func (with_capacity m c) (_capacity m))
         = at_ hash_func key m.
Proof.
  intros Hwf Hc.
  destruct (resize_map_spec hash_func m c Hwf Hc) as (Hwf' & Hcap & Hz & Hp).
  split_and!; [done..|]. intros key. by apply at_perm.
Qed.

Lemma resize_map_preserves_lookup_witness :
  wf IntMap.hash_int (IntMap.single 1 1) ∧ 1 ≤ 4 ∧
  at_ IntMap.hash_int 1
      (resize_map IntMap.hash_int (with_capacity (IntMap.single 1 1) 4) 16)
  = Ret 1.
Proof.
  split; [apply wf_single_1|]. split; [lia|].
  destruct (resize_map_preserves_lookup IntMap.hash_int (IntMap.single 1 1) 4
              wf_single_1 ltac:(lia)) as (_ & _ & _ & Hat).
  etransitivity; [exact (Hat 1)|reflexivity].
Defined.

(** X11.  [handle_resize] always returns on a well formed table, keeps the
    size and what [at] answers for every key, and keeps a power of two
    capacity a power of two.  With [increase] it ends with a load factor of
    at most 0.75 and a capacity that is not smaller; without, it ends with a
    load factor of at least 0.25 or with capacity 1, and a capacity that is
    not larger. *)
Theorem handle_resize_contract {K V : Type} `{!EqDecision K, !EqDecision V}
    (hash_func : K → N) (increase : bool) (m : @HashMap K V) :
  wf hash_func m →
  ∃ m', handle_resize hash_func increase m = Ret m' ∧ wf hash_func m' ∧
        _size m' = _size m ∧
        (∀ key, at_ hash_func key m' = at_ hash_func key m) ∧
        (is_pow2 (_capacity m) → is_pow2 (_capacity m')) ∧
        if increase
        then 4 * _size m' ≤ 3 * _capacity m' ∧ _capacity m ≤ _capacity m'
        else (_capacity m' > 1 → _capacity m' ≤ 4 * _size m') ∧
             _capacity m' ≤ _capacity m.
Proof.
  intros Hwf. destruct increase.
  - destruct (handle_resize_true_spec hash_func m Hwf)
      as (m' & Hrun & Hwf' & Hz & Hp & Hup & Hle & Hpow & _).
    exists m'. split_and!; try done. intros key. by apply at_perm.
  - destruct (handle_resize_false_spec hash_func m Hwf)
      as (m' & Hrun & Hwf' & Hz & Hp & Hlo & _ & Hpow).
    exists m'. split_and!; try done.
    + intros key. by apply at_perm.
    + unfold handle_resize in Hrun. rewrite grow_loop_false in Hrun.
      by apply (shrink_loop_capacity hash_func _ m Hwf (Nat.le_refl _)).
Qed.

Lemma handle_resize_contract_witness :
  wf IntMap.hash_int (IntMap.single 1 1) ∧
  ∃ m', handle_resize IntMap.hash_int false (IntMap.single 1 1) = Ret m' ∧
        _capacity m' = 4 ∧ at_ IntMap.hash_int 1 m' = Ret 1.
Proof.
  split; [apply wf_single_1|].
  destruct (handle_resize_contract IntMap.hash_int false (IntMap.single 1 1)
              wf_single_1) as (m' & Hrun & _ & _ & Hat & _).
  exists m'. split; [exact Hrun|].
  split; [|by rewrite (Hat 1)].
  assert (handle_resize IntMap.hash_int false (IntMap.single 1 1)
          = Ret (mkHashMap [[]; [(1, 1)]; []; []] 1 4)) as Hval by reflexivity.
  rewrite Hval in Hrun. by injection Hrun as <-.
Defined.

(** X12.  When [bucket_index] returns, the index is that of an existing
    bucket; when [bucket_size] returns, the size counts at least the key's
    own entry and at most all entries. *)
Theorem bucket_accessors_bounds {K V : Type} `{!EqDecision K, !EqDecision V}
    (hash_func : K → N) (m : @HashMap K V) (key : K) :
  wf hash_func m →
  (∀ i, bucket_index hash_func key m = Ret i → 0 ≤ i < _capacity m) ∧
  (∀ n, bucket_size hash_func key m = Ret n → 1 ≤ n ≤ _size m).
Proof.
  intros Hwf. pose proof Hwf as [Hs _ Hsz]. unfold bucket_index, bucket_size, at_.
  destruct (find_key _ _) as [[j e]|] eqn:Hf; simpl; split; try done.
  - intros i [= <-]. apply get_hash_index_range, Hs.
  - intros n [= <-]. apply find_key_Some in Hf as [Hj _].
    apply lookup_lt_Some in Hj. split; [lia|].
    rewrite Hsz. unfold elements.
    rewrite (concat_lookup_split _ _ _ (bucket_in_map hash_func m key Hs)).
    rewrite !length_app. lia.
Qed.

Lemma bucket_accessors_bounds_witness :
  wf IntMap.hash_int (IntMap.single 1 1) ∧
  bucket_index IntMap.hash_int 1 (IntMap.single 1 1) = Ret 1 ∧
  0 ≤ 1 < _capacity (IntMap.single 1 1).
Proof.
  assert (bucket_index IntMap.hash_int 1 (IntMap.single 1 1) = Ret 1) as Hrun
    by reflexivity.
  split; [apply wf_single_1|]. split; [exact Hrun|].
  apply (proj1 (bucket_accessors_bounds IntMap.hash_int (IntMap.single 1 1) 1
                  wf_single_1) 1 Hrun).
Defined.

(** X13.  In every reachable table no key is stored twice, every entry sits
    in the bucket its key hashes to, the bucket array has [_capacity]
    buckets, and [_size] is the number of stored entries. *)
Theorem reachable_well_formed {K V : Type}
    `{!EqDecision K, !EqDecision V, !Inhabited V}
    (hash_func : K → N) (m : @HashMap K V) :
  reachable hash_func m →
  NoDup (elements m).*1 ∧
  (∀ key value, (key, value) ∈ elements m →
                (key, value) ∈ bucket m (get_hash_index hash_func m key)) ∧
  length (_map m) = Z.to_nat (_capacity m) ∧
  _size m = Z.of_nat (length (elements m)).
Proof.
  intros ([Hs Hnd Hsz] & _)%reachable_inv. split_and!; [done| |apply Hs|done].
  intros key value Hin. by apply (elements_bucket hash_func m (key, value) Hs).
Qed.

Lemma reachable_well_formed_witness :
  reachable IntMap.hash_int (IntMap.single 1 1) ∧
  _size (IntMap.single 1 1) = Z.of_nat (length (elements (IntMap.single 1 1))).
Proof.
  split; [apply reachable_single_1|].
  apply (reachable_well_formed IntMap.hash_int (IntMap.single 1 1)
           reachable_single_1).
Defined.

(** X14.  On a well formed table [empty] is true exactly when no key is
    found. *)
Theorem empty_iff_no_key {K V : Type} `{!EqDecision K, !EqDecision V}
    (hash_func : K → N) (m : @HashMap K V) :
  wf hash_func m →
  empty m = true ↔ ∀ key, contains_key hash_func key m = false.
Proof.
  intros Hwf. pose proof Hwf as [_ _ Hsz]. unfold empty, INITIAL_SIZE.
  rewrite bool_decide_eq_true. split.
  - intros Hz key. apply not_true_is_false.
    rewrite (contains_key_elements hash_func m key Hwf).
    destruct (elements m); [apply not_elem_of_nil|simpl in Hsz; lia].
  - intros Hnone. destruct (elements m) as [|[k v] l] eqn:E; [by rewrite Hsz|].
    specialize (Hnone k). apply not_true_iff_false in Hnone. exfalso.
    apply Hnone, (contains_key_elements hash_func m k Hwf).
    rewrite E. simpl. apply list_elem_of_here.
Qed.

Lemma empty_iff_no_key_witness :
  wf IntMap.hash_int IntMap.fresh ∧
  (empty IntMap.fresh = true ↔
   ∀ key, contains_key IntMap.hash_int key IntMap.fresh = false).
Proof.
  assert (wf IntMap.hash_int IntMap.fresh) as Hwf
    by apply reachable_inv, reachable_fresh.
  split; [exact Hwf|].
  apply (empty_iff_no_key IntMap.hash_int IntMap.fresh Hwf).
Defined.

Section Cursor.
Context {K V : Type} `{!EqDecision K, !EqDecision V}.
Variable hash_func : K → N.
Implicit Types (m hm this rhs : @HashMap K V) (it : ConstIterator).

Lemma next_index_from_between m n i :
  0 ≤ i →
  ∀ i', i ≤ i' < next_index_from m n i → i' < i + Z.of_nat n → bucket m i' = [].
Proof.
  revert i. induction n as [|n IH]; intros i Hi i' Hi' Hlt; simpl in *; [lia|].
  destruct (bucket m i) as [|e b] eqn:Hb; [|lia].
  destruct (decide (i' = i)) as [->|Hne]; [done|].
  apply (IH (i + 1)); lia.
Qed.

(** The loop over a table run on an empty target: the result holds the
    entries of the buckets of index 1 and above. *)
Lemma insert_from_view hm this :
  wf hash_func hm → wf hash_func this → elements this = [] →
  ∃ m, insert_from hash_func hm this = Ret m ∧ wf hash_func m ∧
       elements hm ≡ₚ bucket hm 0 ++ elements m ∧
       (∀ k, at_ hash_func k m
             = if decide (get_hash_index hash_func hm k = 0)
               then Throw KeyNotFound else at_ hash_func k hm) ∧
       (4 * _size hm ≤ 3 * _capacity this → _capacity m = _capacity this).
Proof.
  intros Hwf Hthis E0. pose proof Hwf as [[Hc Hl Hpl] Hnd Hsz].
  destruct (traverse_elements hash_func hm Hwf) as (l & Hrun & Hel).
  rewrite traverse_spec in Hrun by done. injection Hrun as Hrun.
  rewrite insert_from_spec, Hrun by done.
  assert (_size this = 0) as Hz0 by (by rewrite (wf_size _ _ Hthis), E0).
  destruct (insert_all_spec hash_func l this Hthis) as (m & Hins & Hwfm & Hp & Hz & Hsame).
  - rewrite Hel, fmap_app in Hnd. by apply NoDup_app in Hnd as (_ & _ & ?).
  - intros k _. rewrite E0. apply not_elem_of_nil.
  - rewrite E0 in Hp. simpl in Hp.
    exists m. split_and!; [done|done|by rewrite Hel, Hp| |].
    + intros k. case_decide as Hidx.
      * destruct (at_cases hash_func m k) as [(v & Hv & _)|[Hv _]]; [|done].
        exfalso. apply (at_elements hash_func m k v Hwfm) in Hv. rewrite Hp in Hv.
        assert ((k, v) ∈ bucket hm 0) as Hb.
        { rewrite <-Hidx.
          apply (elements_bucket hash_func hm (k, v) (wf_shaped _ _ Hwf)).
          rewrite Hel. apply elem_of_app. by right. }
        rewrite Hel, fmap_app in Hnd. apply NoDup_app in Hnd as (_ & Hdisj & _).
        apply (Hdisj k); apply list_elem_of_fmap; by eexists (k, v).
      * apply at_determined; [done..|]. intros v. rewrite Hp, Hel, elem_of_app.
        split; [by right|]. intros [Hb|?]; [|done].
        apply (bucket_hash hash_func hm 0 _ (wf_shaped _ _ Hwf)) in Hb; [done|lia].
    + intros Hload. rewrite Hsame.
      * simpl. by destruct (foldl_push_fields hash_func l this) as [-> _].
      * rewrite Hz0. rewrite Hsz, Hel, length_app in Hload. lia.
Qed.
End Cursor.

(** X15.  [get_next_index_with_elements] returns an index after the one
    given and at most the capacity; below the capacity the bucket it names is
    not empty, and every bucket between the two is empty. *)
Theorem get_next_index_with_elements_spec {K V : Type}
    (m : @HashMap K V) (curr_index : Z) :
  length (_map m) = Z.to_nat (_capacity m) → -1 ≤ curr_index < _capacity m →
  curr_index < get_next_index_with_elements m curr_index ≤ _capacity m ∧
  (get_next_index_with_elements m curr_index < _capacity m →
   bucket m (get_next_index_with_elements m curr_index) ≠ []) ∧
  ∀ i, curr_index < i < get_next_index_with_elements m curr_index →
       bucket m i = [].
Proof.
  intros Hl Hcurr. unfold get_next_index_with_elements.
  destruct (next_index_from_spec m (Z.to_nat (_capacity m - (curr_index + 1)))
              (curr_index + 1) Hl ltac:(lia) ltac:(lia)) as (Hr & _ & Hne).
  split_and!; [lia|lia|done|].
  intros i Hi. eapply next_index_from_between; [|split; [|apply Hi]|]; lia.
Qed.

Lemma get_next_index_with_elements_spec_witness :
  length (_map (IntMap.single 5 1)) = Z.to_nat (_capacity (IntMap.single 5 1)) ∧
  -1 ≤ 0 < _capacity (IntMap.single 5 1) ∧
  get_next_index_with_elements (IntMap.single 5 1) 0 = 5 ∧
  bucket (IntMap.single 5 1) 3 = [].
Proof.
  split; [reflexivity|]. split; [by vm_compute|]. split; [reflexivity|].
  refine (proj2 (proj2 (get_next_index_with_elements_spec (IntMap.single 5 1) 0
                          eq_refl _)) 3 _); by vm_compute.
Defined.

(** X16.  [operator*] at a cursor on a stored element returns that element,
    and [operator++] then leads to the end cursor or to a stored element
    again, with exactly the elements after the current one still ahead. *)
Theorem iterator_step {K V : Type} (m : @HashMap K V) (it : ConstIterator) :
  length (_map m) = Z.to_nat (_capacity m) →
  0 ≤ map_index it < _capacity m →
  0 ≤ element_index it < Z.of_nat (length (bucket m (map_index it))) →
  ∃ element,
    it_deref m it = Ret element ∧
    bucket m (map_index it) !! Z.to_nat (element_index it) = Some element ∧
    good_cursor m (it_next m it) ∧
    rest m it = element :: rest m (it_next m it).
Proof.
  intros Hl Hmi Hei.
  destruct (lookup_lt_is_Some_2 (bucket m (map_index it))
              (Z.to_nat (element_index it)) ltac:(lia)) as [e He].
  exists e. split_and!; [|done| |].
  - unfold it_deref. rewrite !bool_decide_eq_true_2 by lia. simpl.
    rewrite bucket_lookup by lia. by rewrite He.
  - unfold it_next. case_bool_decide.
    + apply next_cursor_spec; [done|lia].
    + right; simpl. lia.
  - unfold rest at 1. rewrite (drop_S _ _ _ He). simpl. f_equal.
    unfold it_next. case_bool_decide.
    + rewrite (proj2 (next_cursor_spec m (map_index it) Hl Hmi)).
      by rewrite (drop_ge (bucket m (map_index it))) by lia.
    + unfold rest; simpl.
      by replace (Z.to_nat (element_index it + 1))
        with (S (Z.to_nat (element_index it))) by lia.
Qed.

Lemma iterator_step_witness :
  length (_map (IntMap.single 5 1)) = Z.to_nat (_capacity (IntMap.single 5 1)) ∧
  it_deref (IntMap.single 5 1) (mkIt 5 0) = Ret (5, 1) ∧
  good_cursor (IntMap.single 5 1) (it_next (IntMap.single 5 1) (mkIt 5 0)).
Proof.
  split; [reflexivity|]. split; [reflexivity|].
  destruct (iterator_step (IntMap.single 5 1) (mkIt 5 0) eq_refl)
    as (e & _ & _ & Hgood & _); [by vm_compute..|exact Hgood].
Defined.

(** X17.  A traversal from [begin ()] to [end ()] ends, and visits the
    buckets of index 1 and above in ascending order, each in insertion
    order: every entry outside bucket 0 once, no entry of bucket 0; with an
    empty bucket 0 it visits every entry once. *)
Theorem traverse_visits {K V : Type} `{!EqDecision K, !EqDecision V}
    (hash_func : K → N) (m : @HashMap K V) :
  wf hash_func m →
  ∃ l, traverse m = Ret l ∧ l = concat (drop 1 (_map m)) ∧
       elements m = bucket m 0 ++ l ∧ NoDup l ∧
       (∀ element, element ∈ l → element ∉ bucket m 0) ∧
       (bucket m 0 = [] → l = elements m).
Proof.
  intros Hwf. pose proof Hwf as [[Hc Hl _] Hnd _].
  destruct (traverse_elements hash_func m Hwf) as (l & Hrun & Hel).
  exists l. split_and!; [done| |done| | |].
  - rewrite traverse_spec in Hrun by done. by injection Hrun as <-.
  - rewrite Hel, fmap_app in Hnd. apply NoDup_app in Hnd as (_ & _ & Hl').
    by apply NoDup_fmap_1 in Hl'.
  - intros e He Hb. rewrite Hel, fmap_app in Hnd.
    apply NoDup_app in Hnd as (_ & Hdisj & _).
    apply (Hdisj e.1); by apply list_elem_of_fmap_2.
  - intros Hb. by rewrite Hel, Hb.
Qed.

Lemma traverse_visits_witness :
  wf IntMap.hash_int (IntMap.single 1 1) ∧
  traverse (IntMap.single 1 1) = Ret (elements (IntMap.single 1 1)).
Proof.
  split; [apply wf_single_1|].
  destruct (traverse_visits IntMap.hash_int (IntMap.single 1 1) wf_single_1)
    as (l & Hrun & _ & _ & _ & _ & Hall).
  rewrite Hrun. f_equal. by apply Hall.
Defined.

(** X18.  [begin ()] equals [end ()] exactly when the table has no entry
    outside bucket 0; so it does on an empty table. *)
Theorem begin_is_end_iff {K V : Type} `{!EqDecision K, !EqDecision V}
    (hash_func : K → N) (m : @HashMap K V) :
  wf hash_func m →
  (cbegin m = cend m ↔ elements m = bucket m 0) ∧
  (_size m = 0 → cbegin m = cend m).
Proof.
  intros Hwf. pose proof Hwf as [[Hc Hl _] _ Hsz].
  destruct (traverse_elements hash_func m Hwf) as (l & Hrun & Hel).
  rewrite traverse_spec in Hrun by done. injection Hrun as Hrun.
  destruct (next_cursor_spec m 0 Hl ltac:(lia)) as [Hgood Hrest].
  change (mkIt (get_next_index_with_elements m 0) 0) with (cbegin m) in *.
  change (S (Z.to_nat 0)) with 1%nat in Hrest. rewrite Hrun in Hrest.
  assert (cbegin m = cend m ↔ l = []) as Hiff.
  { split.
    - intros Heq. rewrite <-Hrest, Heq. by apply rest_cend.
    - intros Hnil. destruct Hgood as [?|[Hmi Hei]]; [done|]. exfalso.
      rewrite Hnil in Hrest. apply (f_equal length) in Hrest.
      unfold rest in Hrest. rewrite length_app, length_drop in Hrest.
      simpl in Hrest, Hei. lia. }
  split.
  - rewrite Hiff, Hel. split; [intros ->; by rewrite app_nil_r|].
    intros Happ. apply (f_equal length) in Happ. rewrite length_app in Happ.
    destruct l; [done|simpl in Happ; lia].
  - intros Hz. apply Hiff. rewrite Hz, Hel, length_app in Hsz.
    destruct l; [done|simpl in Hsz; lia].
Qed.

Lemma begin_is_end_iff_witness :
  wf IntMap.hash_int IntMap.fresh ∧ _size IntMap.fresh = 0 ∧
  cbegin IntMap.fresh = cend IntMap.fresh.
Proof.
  assert (wf IntMap.hash_int IntMap.fresh) as Hwf
    by apply reachable_inv, reachable_fresh.
  split; [exact Hwf|]. split; [reflexivity|].
  apply (begin_is_end_iff IntMap.hash_int IntMap.fresh Hwf). reflexivity.
Defined.

(** X19.  The copy constructor, on a table with a load factor of at most
    0.75, returns a well formed table with the capacity of the source.  A key
    of a bucket of index 1 and above answers [at] on the copy as on the
    source; a key of bucket 0 is not found on the copy.  When bucket 0 of the
    source is empty the copy answers [at] as the source for every key and has
    its size. *)
Theorem HashMap_copy_view {K V : Type} `{!EqDecision K, !EqDecision V}
    (hash_func : K → N) (hm : @HashMap K V) :
  wf hash_func hm → 4 * _size hm ≤ 3 * _capacity hm →
  ∃ c, HashMap_copy hash_func hm = Ret c ∧ wf hash_func c ∧
       _capacity c = _capacity hm ∧
       _size c = _size hm - Z.of_nat (length (bucket hm 0)) ∧
       (∀ k, at_ hash_func k c
             = if decide (get_hash_index hash_func hm k = 0)
               then Throw KeyNotFound else at_ hash_func k hm) ∧
       (bucket hm 0 = [] →
        _size c = _size hm ∧ ∀ k, at_ hash_func k c = at_ hash_func k hm).
Proof.
  intros Hwf Hload.
  pose proof (shaped_capacity _ _ (wf_shaped _ _ Hwf)) as Hc.
  destruct (insert_from_view hash_func hm
              (mkHashMap (new_map (_capacity hm)) INITIAL_SIZE (_capacity hm)) Hwf)
    as (c & Hrun & Hwfc & Hp & Hat & Hcap).
  { by apply wf_new. }
  { apply concat_replicate_nil. }
  assert (_size c = _size hm - Z.of_nat (length (bucket hm 0))) as Hz.
  { rewrite (wf_size _ _ Hwf), (wf_size _ _ Hwfc), Hp, length_app. lia. }
  exists c. split_and!; [done|done|by apply Hcap|done|done|].
  intros Hb. split; [rewrite Hz, Hb; simpl; lia|].
  intros k. rewrite Hat. case_decide as Hidx; [|done].
  unfold at_. by rewrite Hidx, Hb.
Qed.

Lemma HashMap_copy_view_witness :
  wf IntMap.hash_int (IntMap.single 1 1) ∧
  4 * _size (IntMap.single 1 1) ≤ 3 * _capacity (IntMap.single 1 1) ∧
  ∃ c, HashMap_copy IntMap.hash_int (IntMap.single 1 1) = Ret c ∧
       _capacity c = 16 ∧ at_ IntMap.hash_int 1 c = Ret 1.
Proof.
  assert (4 * _size (IntMap.single 1 1) ≤ 3 * _capacity (IntMap.single 1 1))
    as Hload by (vm_compute; discriminate).
  split; [apply wf_single_1|]. split; [exact Hload|].
  destruct (HashMap_copy_view IntMap.hash_int (IntMap.single 1 1) wf_single_1 Hload)
    as (c & Hrun & _ & Hcap & _ & Hat & _).
  exists c. split; [exact Hrun|]. split; [exact Hcap|].
  etransitivity; [exact (Hat 1)|reflexivity].
Defined.

(** X20.  [operator=] from another table returns a well formed table that
    holds nothing of the old content of the target: a key of a bucket of
    index 1 and above of the source answers [at] as on the source, and every
    other key is not found.  The capacity is the target's when three
    quarters of it are enough for the source's size. *)
Theorem assign_view {K V : Type} `{!EqDecision K, !EqDecision V}
    (hash_func : K → N) (this hm : @HashMap K V) :
  wf hash_func this → wf hash_func hm →
  ∃ m, assign hash_func this hm = Ret m ∧ wf hash_func m ∧
       _size m = _size hm - Z.of_nat (length (bucket hm 0)) ∧
       (∀ k, at_ hash_func k m
             = if decide (get_hash_index hash_func hm k = 0)
               then Throw KeyNotFound else at_ hash_func k hm) ∧
       (4 * _size hm ≤ 3 * _capacity this → _capacity m = _capacity this).
Proof.
  intros Hthis Hwf.
  pose proof (shaped_capacity _ _ (wf_shaped _ _ Hthis)) as Hc.
  destruct (insert_from_view hash_func hm (clear this) Hwf)
    as (m & Hrun & Hwfm & Hp & Hat & Hcap).
  { by apply wf_new. }
  { apply concat_replicate_nil. }
  exists m. split_and!; [done|done| |done|done].
  rewrite (wf_size _ _ Hwf), (wf_size _ _ Hwfm), Hp, length_app. lia.
Qed.

Lemma assign_view_witness :
  wf IntMap.hash_int (IntMap.single 2 7) ∧ wf IntMap.hash_int (IntMap.single 1 1) ∧
  ∃ m, assign IntMap.hash_int (IntMap.single 2 7) (IntMap.single 1 1) = Ret m ∧
       at_ IntMap.hash_int 1 m = Ret 1 ∧
       at_ IntMap.hash_int 2 m = Throw KeyNotFound.
Proof.
  assert (wf IntMap.hash_int (IntMap.single 2 7)) as Hwf2.
  { apply reachable_inv.
    apply (reach_insert IntMap.hash_int 2 7 IntMap.fresh (true, IntMap.single 2 7));
      [apply reach_default | reflexivity]. }
  split; [exact Hwf2|]. split; [apply wf_single_1|].
  destruct (assign_view IntMap.hash_int (IntMap.single 2 7) (IntMap.single 1 1)
              Hwf2 wf_single_1) as (m & Hrun & _ & _ & Hat & _).
  exists m. split; [exact Hrun|].
  split; (etransitivity; [apply Hat|reflexivity]).
Defined.

(** X21.  [operator==] never throws: it returns a boolean, and [operator!=]
    returns its negation.  When it returns [true] the two sizes are equal and
    every key of a bucket of index 1 and above of the left table has the
    same value on the right. *)
Theorem op_eq_contract {K V : Type} `{!EqDecision K, !EqDecision V}
    (hash_func : K → N) (this rhs : @HashMap K V) :
  wf hash_func this →
  ∃ b, op_eq hash_func this rhs = Ret b ∧
       op_neq hash_func this rhs = Ret (negb b) ∧
       (b = true →
        _size this = _size rhs ∧
        ∀ k v, get_hash_index hash_func this k ≠ 0 →
               at_ hash_func k this = Ret v → at_ hash_func k rhs = Ret v).
Proof.
  intros Hwf. pose proof Hwf as [[Hc Hl Hpl] _ _].
  destruct (op_eq_spec hash_func this rhs Hl Hc) as (b & Hrun & Hb).
  exists b. split; [done|]. split; [unfold op_neq; by rewrite Hrun|].
  intros [Hsz Hall]%Hb. split; [done|]. intros k v Hidx Hat.
  apply (at_elements hash_func this k v Hwf) in Hat.
  destruct (traverse_elements hash_func this Hwf) as (l & Hrun' & Hel).
  rewrite traverse_spec in Hrun' by done. injection Hrun' as Hrun'.
  rewrite Hrun' in Hall. rewrite Hel in Hat.
  apply elem_of_app in Hat as [Hb0|Hin].
  - apply (bucket_hash hash_func this 0 _ (wf_shaped _ _ Hwf)) in Hb0; [done|lia].
  - rewrite Forall_forall in Hall. apply (Hall (k, v) Hin).
Qed.

Lemma op_eq_contract_witness :
  wf IntMap.hash_int (IntMap.single 1 1) ∧
  op_eq IntMap.hash_int (IntMap.single 1 1) (IntMap.single 1 2) = Ret false ∧
  op_neq IntMap.hash_int (IntMap.single 1 1) (IntMap.single 1 2) = Ret true.
Proof.
  split; [apply wf_single_1|].
  destruct (op_eq_contract IntMap.hash_int (IntMap.single 1 1) (IntMap.single 1 2)
              wf_single_1) as (b & Hrun & Hneg & _).
  assert (op_eq IntMap.hash_int (IntMap.single 1 1) (IntMap.single 1 2) = Ret false)
    as Hval by reflexivity.
  rewrite Hval in Hrun. injection Hrun as <-. split; [exact Hval|exact Hneg].
Defined.

(** X22.  Two well formed tables in which every key answers [at] alike
    compare equal, whatever their capacities; so a table equals itself. *)
Theorem op_eq_same_content {K V : Type} `{!EqDecision K, !EqDecision V}
    (hash_func : K → N) (this rhs : @HashMap K V) :
  wf hash_func this → wf hash_func rhs →
  (∀ k, at_ hash_func k this = at_ hash_func k rhs) →
  op_eq hash_func this rhs = Ret true ∧ op_neq hash_func this rhs = Ret false ∧
  op_eq hash_func this this = Ret true.
Proof.
  intros Hwf Hrhs Hview. pose proof Hwf as [[Hc Hl _] _ _].
  assert (∀ rhs', wf hash_func rhs' →
                  (∀ k, at_ hash_func k this = at_ hash_func k rhs') →
                  op_eq hash_func this rhs' = Ret true) as Hgen.
  { intros rhs' Hrhs' Hview'.
    destruct (op_eq_spec hash_func this rhs' Hl Hc) as (b & Hrun & Hb).
    rewrite Hrun. f_equal. apply Hb.
    split; [by apply (same_view_same_size hash_func)|].
    apply Forall_forall. intros [k v] Hin. simpl. rewrite <-Hview'.
    apply (at_elements hash_func this k v Hwf).
    unfold elements. apply elem_of_concat.
    apply elem_of_concat in Hin as (i & b' & Hi & Hin).
    rewrite lookup_drop in Hi. eauto. }
  split_and!.
  - by apply Hgen.
  - unfold op_neq. by rewrite (Hgen rhs Hrhs Hview).
  - by apply Hgen.
Qed.

Lemma op_eq_same_content_witness :
  wf IntMap.hash_int (IntMap.single 1 1) ∧
  op_eq IntMap.hash_int (IntMap.single 1 1) (IntMap.single 1 1) = Ret true.
Proof.
  split; [apply wf_single_1|].
  apply (op_eq_same_content IntMap.hash_int (IntMap.single 1 1) (IntMap.single 1 1)
           wf_single_1 wf_single_1 (λ k, eq_refl)).
Defined.

(** X23.  [Dictionary::update] run a second time with the same pairs changes
    neither the size nor what [at] answers for any key. *)
Theorem update_twice (hash_s : string → N) (d : Dictionary)
    (its : list (string * string)) :
  wf hash_s d →
  ∃ d1 d2, update hash_s its d = Ret d1 ∧ update hash_s its d1 = Ret d2 ∧
           _size d2 = _size d1 ∧
           ∀ k, at_ hash_s k d2 = at_ hash_s k d1.
Proof.
  intros Hwf. rewrite update_put_all.
  destruct (put_all_spec hash_s its d Hwf) as (d1 & Hrun1 & Hwf1 & Hat1 & _).
  destruct (put_all_spec hash_s its d1 Hwf1) as (d2 & Hrun2 & Hwf2 & Hat2 & _).
  exists d1, d2. rewrite update_put_all.
  assert (∀ k, at_ hash_s k d2 = at_ hash_s k d1) as Hview.
  { intros k. rewrite Hat2, Hat1. by destruct (last_value k its). }
  split_and!; [done|done| |done].
  by apply (same_view_same_size hash_s).
Qed.

Lemma update_twice_witness :
  wf StrMap.hash_len StrMap.single_a ∧
  ∃ d1 d2,
    update StrMap.hash_len [("a", "9"); ("z", "26")] StrMap.single_a = Ret d1 ∧
    update StrMap.hash_len [("a", "9"); ("z", "26")] d1 = Ret d2 ∧
    _size d2 = _size d1.
Proof.
  split; [apply wf_single_a|].
  destruct (update_twice StrMap.hash_len StrMap.single_a
              [("a", "9"); ("z", "26")] wf_single_a)
    as (d1 & d2 & Hrun1 & Hrun2 & Hz & _).
  exists d1, d2. split; [exact Hrun1|]. split; [exact Hrun2|exact Hz].
Defined.

(** X25.  After [Dictionary::erase] has removed a key, a second
    [Dictionary::erase] of that key throws [InvalidKey], and [HashMap::erase]
    returns [false] with the table as it is. *)
Theorem Dictionary_erase_twice (hash_s : string → N) (d : Dictionary)
    (key : string) :
  wf hash_s d → contains_key hash_s key d = true →
  ∃ d', Dictionary_erase hash_s key d = Ret (true, d') ∧ wf hash_s d' ∧
        Dictionary_erase hash_s key d' = Throw (InvalidKey INVALID_KEY) ∧
        erase hash_s key d' = Ret (false, d').
Proof.
  intros Hwf Hc.
  destruct (erase_present_view hash_s d key Hwf Hc) as (d' & Hrun & Hwf' & _ & Hc' & _).
  exists d'. split_and!; [|done| |].
  - by rewrite Dictionary_erase_present.
  - by apply Dictionary_erase_absent.
  - by apply erase_absent.
Qed.

Lemma Dictionary_erase_twice_witness :
  wf StrMap.hash_len StrMap.single_a ∧
  contains_key StrMap.hash_len "a" StrMap.single_a = true ∧
  ∃ d', Dictionary_erase StrMap.hash_len "a" StrMap.single_a = Ret (true, d') ∧
        Dictionary_erase StrMap.hash_len "a" d' = Throw (InvalidKey INVALID_KEY).
Proof.
  assert (contains_key StrMap.hash_len "a" StrMap.single_a = true) as Hc
    by reflexivity.
  split; [apply wf_single_a|]. split; [exact Hc|].
  destruct (Dictionary_erase_twice StrMap.hash_len StrMap.single_a "a"
              wf_single_a Hc) as (d' & Hrun & _ & Hthrow & _).
  exists d'. split; [exact Hrun|exact Hthrow].
Defined.
